(** * django_sorcery.db.meta: descriptors for SQLAlchemy model metadata

    A shallow embedding of [src/django_sorcery/db/meta.py] and the
    properties of its registry, column, composite, relationship and model
    descriptors.

    Python strings are [string]s holding their UTF-8 bytes, in which the
    ASCII characters are single bytes below 128 and the order of the bytes
    is the order of the code points.
    Python dictionaries keyed by strings are [gmap string _]; the ordered
    dictionaries whose insertion order is observable are association lists;
    Python sets are [gset]; exceptions are an explicit sum threaded through
    a small state-and-exception monad in which, as in Python, the mutations
    done before a [raise] persist. *)

From Stdlib Require Import Ascii String.
From stdpp Require Import base option list list_monad gmap sets strings sorting.

Local Open Scope string_scope.

(** ** Python values and exceptions *)

Inductive PyVal : Type :=
  | VNone
  | VBool (b : bool)
  | VInt (n : Z)
  | VStr (s : string)
  | VList (l : list string)
  | VClass (name : string).

Inductive PyExn : Type :=
  | AttributeError
  | KeyError
  | AssertionError
  | NotImplementedError
  | NoInspectionAvailable
  | NoReferencedTableError
  | NoReferencedColumnError.

Global Instance PyExn_eq_dec : EqDecision PyExn.
Proof. solve_decision. Defined.

(** A computation over a mutable state [St] that either returns or raises;
    the state reached so far is kept in both cases. *)
Definition Py (St A : Type) : Type := St → (PyExn + A) * St.

Definition raise {St A} (e : PyExn) : Py St A := fun s => (inl e, s).

Global Instance Py_ret {St} : MRet (Py St) := fun A a s => (inr a, s).

Global Instance Py_bind {St} : MBind (Py St) := fun A B k m s =>
  match m s with
  | (inl e, s') => (inl e, s')
  | (inr a, s') => k a s'
  end.

Definition modify {St} (f : St → St) : Py St unit := fun s => (inr tt, f s).

Definition get_state {St} : Py St St := fun s => (inr s, s).

(** [obj.attr] on an object that may not expose the attribute. *)
Definition py_getattr {St A} (o : option A) : Py St A :=
  match o with
  | Some v => mret v
  | None => raise AttributeError
  end.

(** [obj.attr] when reading the attribute runs code (a property): the
    value, or the exception the read raises. *)
Definition py_read {St A} (o : PyExn + A) : Py St A :=
  match o with
  | inr v => mret v
  | inl e => raise e
  end.

(** Modelled from the spec: [suppress] of [..utils] is not part of the
    sources; the spec says that a step depending on an attribute the type
    does not expose "is individually skipped (no failure propagates)".  It is
    the context manager [with suppress(exc):], which leaves the block at the
    first [exc] raised inside it and swallows that exception; any other
    exception propagates. *)
Definition suppress {St} (exc : PyExn) (body : Py St unit) : Py St unit :=
  fun s =>
    match body s with
    | (inl e, s') => if decide (e = exc) then (inr tt, s') else (inl e, s')
    | (inr _, s') => (inr tt, s')
    end.

(** ** Strings: [str.split], [str.join], [capfirst], [str.startswith] *)

Fixpoint split (sep : ascii) (s : string) : list string :=
  match s with
  | EmptyString => [EmptyString]
  | String c s' =>
      if Ascii.eqb c sep then EmptyString :: split sep s'
      else match split sep s' with
           | [] => [String c EmptyString]
           | w :: ws => String c w :: ws
           end
  end.

Definition join (sep : string) (l : list string) : string := String.concat sep l.

Definition is_ascii (c : ascii) : bool := (nat_of_ascii c <? 128)%nat.

(** [str.upper] on an ASCII character. *)
Definition upper (c : ascii) : ascii :=
  let n := nat_of_ascii c in
  if (97 <=? n)%nat && (n <=? 122)%nat then ascii_of_nat (n - 32) else c.

Section capfirst.
(** [capfirst] on a string whose first character is not ASCII: the upper
    case of that character comes from the tables of Unicode and can be
    several characters long; it is a parameter here. *)
Variable unicode_capfirst : string → string.

(** [django.utils.text.capfirst], [x and str(x)[0].upper() + str(x)[1:]]:
    upper-cases the first character. *)
Definition capfirst (s : string) : string :=
  match s with
  | EmptyString => EmptyString
  | String c s' =>
      if is_ascii c then String (upper c) s' else unicode_capfirst s
  end.
End capfirst.

(** [attr.startswith("_")] *)
Definition startswith_underscore (s : string) : bool :=
  match s with
  | String c _ => Ascii.eqb c "_"%char
  | EmptyString => false
  end.

(** ** Insertion-ordered dictionaries

    [OrderedDict] (and the plain [dict] of Python 3.7 and later): an
    association list in insertion order; assigning to a key that is
    present replaces its value in place, assigning to a new key appends. *)

Module odict.

Definition t (V : Type) : Type := list (string * V).

Definition empty {V} : t V := [].

Definition keys {V} (d : t V) : list string := d.*1.

(** [k in d] *)
Definition contains {V} (k : string) (d : t V) : bool :=
  bool_decide (k ∈ keys d).

(** [d[k]] as a lookup *)
Fixpoint get {V} (k : string) (d : t V) : option V :=
  match d with
  | [] => None
  | (k', v) :: d' => if decide (k = k') then Some v else get k d'
  end.

(** [d[k] = v] *)
Fixpoint set {V} (k : string) (v : V) (d : t V) : t V :=
  match d with
  | [] => [(k, v)]
  | (k', v') :: d' =>
      if decide (k = k') then (k, v) :: d' else (k', v') :: set k v d'
  end.

End odict.

(** ** Mapped objects handed over by the mapping framework

    Columns are compared and hashed by identity; the identity of a column
    is its qualified name. *)

(** A column type; an optional attribute is [None] when the concrete
    type does not expose it (reading it raises [AttributeError]).
    [python_type] is a property of every type: reading it gives a class or
    raises, [NotImplementedError] on a type that does not implement it. *)
Module ColumnType.
Record t : Type := {
  enum_class : option PyVal;
  enums : option PyVal;
  precision : option PyVal;
  scale : option PyVal;
  python_type : PyExn + PyVal;
  length : option PyVal
}.
End ColumnType.

(** A column of a mapper: a table column, or a column expression such as
    the label behind a [column_property], which has a [type] and neither
    [nullable] nor [info] ([None] here: reading them raises
    [AttributeError]). *)
Module Column.
Record t : Type := {
  name : string;
  type : ColumnType.t;
  nullable : option bool;
  info : option (gmap string PyVal)
}.
End Column.

Module ColumnProperty.
Record t : Type := {
  key : string;
  doc : PyVal;
  parent_class : string
}.
End ColumnProperty.

(** The class of an embedded value: its [vars()], and the positional
    parameter names of its [__init__]. *)
Inductive ClassVar : Type :=
  | ColumnVar (c : string)
  | OtherVar.

Module CompositeClass.
Record t : Type := {
  name : string;
  vars : gmap string ClassVar;
  init_args : list string
}.
End CompositeClass.

Module CompositeProperty.
Record t : Type := {
  key : string;
  composite_class : CompositeClass.t;
  props : list ColumnProperty.t;
  columns : list Column.t
}.
End CompositeProperty.

(** One element of a foreign-key constraint: [parent] is the referencing
    column of the owning table, [column] the referenced column.  [column]
    is resolved when it is read: the read raises [NoReferencedTableError]
    or [NoReferencedColumnError] when the table or the column the key
    refers to is not declared. *)
Module ForeignKey.
Record t : Type := {
  parent : string;
  column : PyExn + string
}.
End ForeignKey.

Module ForeignKeyConstraint.
Record t : Type := { elements : list ForeignKey.t }.
End ForeignKeyConstraint.

(** The constraints of a table: its foreign-key constraints and the
    others (primary key, unique, check). *)
Inductive Constraint : Type :=
  | AForeignKeyConstraint (c : ForeignKeyConstraint.t)
  | OtherConstraint (name : string).

Module Table.
Record t : Type := {
  name : string;
  primary_key : list string;
  constraints : list Constraint
}.
End Table.

Inductive Direction : Type := ONETOMANY | MANYTOONE | MANYTOMANY.

Module RelationshipProperty.
Record t : Type := {
  key : string;
  parent_class : string;
  parent_table : Table.t;
  mapper_class : string;
  mapper_table : Table.t;
  target : Table.t;
  direction : Direction;
  local_remote_pairs : list (string * string);
  uselist : bool
}.
End RelationshipProperty.

Module Mapper.
Record t : Type := {
  ident : nat;
  class_ : string;
  primary_key : list Column.t;
  columns : list Column.t;
  get_property_by_column : Column.t → ColumnProperty.t;
  composites : list CompositeProperty.t;
  relationships : list RelationshipProperty.t
}.
End Mapper.

Definition Decimal : PyVal := VClass "decimal.Decimal".

Definition is_none (v : PyVal) : bool :=
  match v with VNone => true | _ => false end.

(** [python_type == Decimal]: classes compare by identity. *)
Definition is_Decimal (v : PyVal) : bool :=
  match v with VClass n => String.eqb n "decimal.Decimal" | _ => false end.

(** [d.get(k, default)] *)
Definition dict_get (d : gmap string PyVal) (k : string) (default : PyVal) : PyVal :=
  match d !! k with Some v => v | None => default end.

(** ** [column_info] *)

Module column_info.

Record t : Type := {
  property : ColumnProperty.t;
  column : Column.t
}.

Definition __init__ (prop : ColumnProperty.t) (col : Column.t) : t :=
  {| property := prop; column := col |}.

Definition name (self : t) : string := ColumnProperty.key (property self).

Definition parent_model (self : t) : string :=
  ColumnProperty.parent_class (property self).

Section field_kwargs.
Variable unicode_capfirst : string → string.

Definition label (self : t) : string :=
  capfirst unicode_capfirst
    (join " " (split "_"%char (ColumnProperty.key (property self)))).

(** The three [with suppress(AttributeError):] blocks of [field_kwargs],
    over the [kwargs] dictionary being filled. *)
Definition enum_block (self : t) : Py (gmap string PyVal) unit :=
  enum_class ← py_getattr (ColumnType.enum_class (Column.type (column self)));
  if negb (is_none enum_class) then
    v ← py_getattr (ColumnType.enum_class (Column.type (column self)));
    modify (insert "enum_class" v)
  else
    v ← py_getattr (ColumnType.enums (Column.type (column self)));
    modify (insert "choices" v).

Definition decimal_block (self : t) : Py (gmap string PyVal) unit :=
  max_digits ← py_getattr (ColumnType.precision (Column.type (column self)));
  decimal_places ← py_getattr (ColumnType.scale (Column.type (column self)));
  python_type ← py_read (ColumnType.python_type (Column.type (column self)));
  if is_Decimal python_type then
    modify (insert "max_digits" max_digits) ;;
    modify (insert "decimal_places" decimal_places)
  else mret tt.

Definition length_block (self : t) : Py (gmap string PyVal) unit :=
  v ← py_getattr (ColumnType.length (Column.type (column self)));
  modify (insert "max_length" v).

Definition field_kwargs_body (self : t) : Py (gmap string PyVal) unit :=
  suppress AttributeError (enum_block self) ;;
  suppress AttributeError (decimal_block self) ;;
  suppress AttributeError (length_block self) ;;
  info ← py_getattr (Column.info (column self));
  nullable ← py_getattr (Column.nullable (column self));
  modify (insert "required" (dict_get info "required" (VBool (negb nullable)))) ;;
  info ← py_getattr (Column.info (column self));
  modify (insert "validators" (dict_get info "validators" (VList []))).

(** [field_kwargs]: the outcome and the dictionary built. *)
Definition field_kwargs (self : t) : PyExn + gmap string PyVal :=
  let kwargs : gmap string PyVal :=
    <["help_text" := ColumnProperty.doc (property self)]>
      (<["label" := VStr (label self)]> ∅) in
  match field_kwargs_body self kwargs with
  | (inl e, _) => inl e
  | (inr _, kwargs') => inr kwargs'
  end.
End field_kwargs.

End column_info.

(** ** [composite_info] *)

(** The [_field_names] slot starts as a [set()] and is rebound to a list
    by the first read of [field_names]. *)
Inductive FieldNames : Type :=
  | FNSet (s : gset string)
  | FNList (l : list string).

Definition isinstance_Column (v : ClassVar) : bool :=
  match v with ColumnVar _ => true | OtherVar => false end.

(** Modelled from the spec: [get_args] of [..utils] is not part of the
    sources; the spec says it reads "the positional parameter names of the
    embedded type's constructor, in declared order". *)
Definition get_args (cls : CompositeClass.t) : list string :=
  CompositeClass.init_args cls.

Module composite_info.

Record t : Type := {
  prop : CompositeProperty.t;
  properties : odict.t column_info.t;
  _field_names : FieldNames
}.

(** [sorted([k for k, v in vars(cls).items() if isinstance(v, sa.Column)])],
    replaced by the constructor's parameter names when empty. *)
Definition attrs (cls : CompositeClass.t) : list string :=
  let attrs :=
    merge_sort String.le
      ((filter (λ kv, isinstance_Column kv.2)
          (map_to_list (CompositeClass.vars cls))).*1) in
  if bool_decide (attrs = []) then get_args cls else attrs.

Definition __init__ (composite : CompositeProperty.t) : t :=
  {| prop := composite;
     properties :=
       foldl (λ d '(attr, (prop, col)),
                odict.set attr (column_info.__init__ prop col) d)
         odict.empty
         (zip (attrs (CompositeProperty.composite_class composite))
            (zip (CompositeProperty.props composite)
               (CompositeProperty.columns composite)));
     _field_names := FNSet ∅ |}.

(** [not self._field_names] *)
Definition falsy (f : FieldNames) : bool :=
  match f with
  | FNSet s => bool_decide (s = ∅)
  | FNList l => bool_decide (l = [])
  end.

Definition set_field_names (f : FieldNames) (self : t) : t :=
  {| prop := prop self; properties := properties self; _field_names := f |}.

Section field_names.
(** The order in which Python iterates over a set of strings. *)
Variable set_iter : gset string → list string.

Definition field_names : Py t FieldNames :=
  self ← get_state;
  (if falsy (_field_names self) then
     (* self._field_names.update(self.properties.keys()) *)
     match _field_names self with
     | FNSet s =>
         modify
           (set_field_names
              (FNSet (s ∪ list_to_set (odict.keys (properties self)))))
     | FNList _ => raise AttributeError
     end ;;
     self ← get_state;
     match _field_names self with
     | FNSet s =>
         modify
           (set_field_names
              (FNList
                 (filter (λ attr, negb (startswith_underscore attr))
                    (set_iter s))))
     | FNList l =>
         modify
           (set_field_names
              (FNList
                 (filter (λ attr, negb (startswith_underscore attr)) l)))
     end
   else mret tt) ;;
  self ← get_state;
  mret (_field_names self).
End field_names.

Definition related_model (self : t) : CompositeClass.t :=
  CompositeProperty.composite_class (prop self).

End composite_info.

(** ** [relation_info] *)

(** [[c for c in constraints if isinstance(c, sa.ForeignKeyConstraint)]] *)
Definition foreign_key_constraints (constraints : list Constraint)
  : list ForeignKeyConstraint.t :=
  omap (λ c, match c with
             | AForeignKeyConstraint k => Some k
             | OtherConstraint _ => None
             end) constraints.

Module relation_info.

Record t : Type := { relationship : RelationshipProperty.t }.

Definition __init__ (relationship : RelationshipProperty.t) : t :=
  {| relationship := relationship |}.

Definition name (self : t) : string :=
  RelationshipProperty.key (relationship self).

Definition parent_model (self : t) : string :=
  RelationshipProperty.parent_class (relationship self).

Definition parent_table (self : t) : Table.t :=
  RelationshipProperty.parent_table (relationship self).

Definition related_model (self : t) : string :=
  RelationshipProperty.mapper_class (relationship self).

Definition related_table (self : t) : Table.t :=
  RelationshipProperty.mapper_table (relationship self).

Definition direction (self : t) : Direction :=
  RelationshipProperty.direction (relationship self).

Definition local_remote_pairs (self : t) : list (string * string) :=
  RelationshipProperty.local_remote_pairs (relationship self).

Definition uselist (self : t) : bool :=
  RelationshipProperty.uselist (relationship self).

(** [{v: k for k, v in pairs}]: a later pair replaces an earlier one
    with the same key. *)
Definition reverse_map (pairs : list (string * string)) : gmap string string :=
  foldl (λ m '(k, v), <[v := k]> m) ∅ pairs.

(** [j.column for j in elements]: the referenced columns, up to the first
    read that raises. *)
Fixpoint referenced_columns (es : list ForeignKey.t) : PyExn + list string :=
  match es with
  | [] => inr []
  | j :: es' =>
      match ForeignKey.column j with
      | inl e => inl e
      | inr c =>
          match referenced_columns es' with
          | inl e => inl e
          | inr cs => inr (c :: cs)
          end
      end
  end.

(** [{i.column: i.parent for i in elements}] *)
Definition constraint_map (es : list ForeignKey.t) : PyExn + gmap string string :=
  foldl (λ acc i,
           match acc with
           | inl e => inl e
           | inr m =>
               match ForeignKey.column i with
               | inl e => inl e
               | inr c => inr (<[c := ForeignKey.parent i]> m)
               end
           end) (inr ∅) es.

(** [[i for i in l if cond(i)]] with a condition that can raise: the
    conditions are evaluated in the order of [l], and the first exception
    ends the comprehension. *)
Fixpoint select {A} (cond : A → PyExn + bool) (l : list A) : PyExn + list A :=
  match l with
  | [] => inr []
  | i :: l' =>
      match cond i with
      | inl e => inl e
      | inr b =>
          match select cond l' with
          | inl e => inl e
          | inr r => inr (if b then i :: r else r)
          end
      end
  end.

(** [[(pairs[i], i) for i in target_pk]]; [None] is the [KeyError] of
    the first missing key. *)
Definition ordered_pairs (pairs : gmap string string) (target_pk : list string)
  : option (list (string * string)) :=
  mapM (λ i, (λ l, (l, i)) <$> pairs !! i) target_pk.

(** The condition of the comprehension selecting the constraints; [and]
    reads the referenced columns only when the first test holds. *)
Definition matches (parent_columns target_columns : gset string)
    (i : ForeignKeyConstraint.t) : PyExn + bool :=
  if bool_decide
       (parent_columns ∩ list_to_set (ForeignKey.parent <$> ForeignKeyConstraint.elements i)
        = parent_columns)
  then
    match referenced_columns (ForeignKeyConstraint.elements i) with
    | inl e => inl e
    | inr columns =>
        inr (bool_decide (target_columns ∩ list_to_set columns = target_columns))
    end
  else inr false.

Definition target_pk (self : t) : list string :=
  Table.primary_key (RelationshipProperty.target (relationship self)).

Definition parent_columns (self : t) : gset string :=
  map_img (reverse_map (local_remote_pairs self)).

Definition target_columns (self : t) : gset string :=
  list_to_set (target_pk self).

Definition matching_constraints (self : t)
  : PyExn + list ForeignKeyConstraint.t :=
  select (matches (parent_columns self) (target_columns self))
    (foreign_key_constraints (Table.constraints (parent_table self))).

Definition local_remote_pairs_for_identity_key (self : t)
  : PyExn + list (string * string) :=
  let pairs := reverse_map (local_remote_pairs self) in
  match ordered_pairs pairs (target_pk self) with
  | Some r => inr r
  | None (* except KeyError *) =>
      match matching_constraints self with
      | inl e => inl e
      | inr matching_constraints =>
          if bool_decide (List.length matching_constraints = 1) then
            match matching_constraints with
            | c :: _ =>
                match constraint_map (ForeignKeyConstraint.elements c) with
                | inl e => inl e
                | inr pairs =>
                    match ordered_pairs pairs (target_pk self) with
                    | Some r => inr r
                    | None => inl KeyError
                    end
                end
            | [] => inl KeyError
            end
          else inr (local_remote_pairs self)
      end
  end.

End relation_info.

(** ** Instances, the registry and the heap *)

Module model_info_object.

(** The [__slots__] of [model_info]; [composites] holds references to
    [composite_info] instances. *)
Record t : Type := {
  mapper : Mapper.t;
  properties : odict.t column_info.t;
  _field_names : option (list string);
  model_class : string;
  composites : odict.t nat;
  primary_keys : odict.t column_info.t;
  relationships : odict.t relation_info.t
}.

Definition set_primary_keys (f : odict.t column_info.t → odict.t column_info.t)
    (o : t) : t :=
  {| mapper := mapper o; properties := properties o;
     _field_names := _field_names o; model_class := model_class o;
     composites := composites o; primary_keys := f (primary_keys o);
     relationships := relationships o |}.

Definition set_properties (f : odict.t column_info.t → odict.t column_info.t)
    (o : t) : t :=
  {| mapper := mapper o; properties := f (properties o);
     _field_names := _field_names o; model_class := model_class o;
     composites := composites o; primary_keys := primary_keys o;
     relationships := relationships o |}.

Definition set_composites (f : odict.t nat → odict.t nat) (o : t) : t :=
  {| mapper := mapper o; properties := properties o;
     _field_names := _field_names o; model_class := model_class o;
     composites := f (composites o); primary_keys := primary_keys o;
     relationships := relationships o |}.

Definition set_relationships
    (f : odict.t relation_info.t → odict.t relation_info.t) (o : t) : t :=
  {| mapper := mapper o; properties := properties o;
     _field_names := _field_names o; model_class := model_class o;
     composites := composites o; primary_keys := primary_keys o;
     relationships := f (relationships o) |}.

Definition set_field_names (f : option (list string)) (o : t) : t :=
  {| mapper := mapper o; properties := properties o;
     _field_names := f; model_class := model_class o;
     composites := composites o; primary_keys := primary_keys o;
     relationships := relationships o |}.

End model_info_object.

(** The objects a descriptor can be requested for: a mapper, a mapped
    class, or the class attribute of a composite ([getattr(cls, key)],
    whose [prop] is the composite property of that name). *)
Inductive PyObject : Type :=
  | OMapper (m : Mapper.t)
  | OClass (c : string)
  | OAttribute (owner : string) (prop : CompositeProperty.t).

(** The identity under which an object is hashed in the registry. *)
Inductive RegKey : Type :=
  | KMapper (ident : nat)
  | KClass (c : string)
  | KAttribute (owner : string) (key : string).

Global Instance RegKey_eq_dec : EqDecision RegKey.
Proof. solve_decision. Defined.

Global Instance RegKey_countable : Countable RegKey.
Proof.
  refine (inj_countable'
    (λ k, match k with
          | KMapper i => inl i
          | KClass c => inr (inl c)
          | KAttribute o k => inr (inr (o, k))
          end)
    (λ x, match x with
          | inl i => KMapper i
          | inr (inl c) => KClass c
          | inr (inr (o, k)) => KAttribute o k
          end) _).
  by intros [].
Defined.

Definition id_of (o : PyObject) : RegKey :=
  match o with
  | OMapper m => KMapper (Mapper.ident m)
  | OClass c => KClass c
  | OAttribute owner prop => KAttribute owner (CompositeProperty.key prop)
  end.

Inductive Instance : Type :=
  | IModel (o : model_info_object.t)
  | IComposite (o : composite_info.t).

(** The mutable state: the [_registry] dictionary, which is an attribute
    of the metaclass and so is shared by [model_info] and [composite_info],
    and which refers to instances by address; and the instances
    themselves. *)
Record World : Type := {
  _registry : gmap RegKey nat;
  heap : gmap nat Instance
}.

Definition set_registry (f : gmap RegKey nat → gmap RegKey nat) (w : World) : World :=
  {| _registry := f (_registry w); heap := heap w |}.

Definition set_heap (f : gmap nat Instance → gmap nat Instance) (w : World) : World :=
  {| _registry := _registry w; heap := f (heap w) |}.

Definition empty_world : World :=
  {| _registry := ∅; heap := ∅ |}.

(** Allocation of a new instance at a fresh address. *)
Definition alloc (i : Instance) : Py World nat := fun w =>
  let address := fresh (dom (heap w)) in
  (inr address, set_heap (insert address i) w).

Definition load_model (self : nat) : Py World model_info_object.t :=
  w ← get_state;
  match heap w !! self with
  | Some (IModel o) => mret o
  | _ => raise AttributeError
  end.

Definition update_model (self : nat)
    (f : model_info_object.t → model_info_object.t) : Py World unit :=
  o ← load_model self;
  modify (set_heap (insert self (IModel (f o)))).

(** [for x in l: body] *)
Fixpoint for_ {St A} (l : list A) (body : A → Py St unit) : Py St unit :=
  match l with
  | [] => mret tt
  | x :: l' => body x ;; for_ l' body
  end.

(** [assert b] *)
Definition assert {St} (b : bool) : Py St unit :=
  if b then mret tt else raise AssertionError.

(** ** [model_info_meta] *)

(** [if isinstance(model, sa.orm.Mapper): model = model.class_] *)
Definition resolve (model : PyObject) : PyObject :=
  match model with
  | OMapper m => OClass (Mapper.class_ m)
  | _ => model
  end.

Module model_info_meta.

(** [__call__(cls, model)]; [super_call] is [super().__call__] for
    [cls], that is the construction of an instance of [cls]. *)
Definition __call__ (super_call : PyObject → Py World nat) (model : PyObject)
  : Py World nat :=
  let model := resolve model in
  w ← get_state;
  (if bool_decide (id_of model ∈ dom (_registry w)) then mret tt
   else
     instance ← super_call model;
     modify (set_registry (insert (id_of model) instance))) ;;
  w ← get_state;
  match _registry w !! id_of model with
  | Some instance => mret instance
  | None => raise KeyError
  end.

End model_info_meta.

(** [composite_info(composite)]: the class is built with the metaclass, so
    the call goes through the registry.  [__init__] reads [composite.prop],
    which only an attribute has. *)
Definition composite_info_construct (composite : PyObject) : Py World nat :=
  match composite with
  | OAttribute _ prop => alloc (IComposite (composite_info.__init__ prop))
  | _ => raise AttributeError
  end.

Definition composite_info_call : PyObject → Py World nat :=
  model_info_meta.__call__ composite_info_construct.

(** ** [model_info] *)

Module model_info.

Import model_info_object.

(** The bodies of the four loops of [_configure]. *)
Definition record_primary_key (self : nat) (mapper_ : Mapper.t) (col : Column.t)
  : Py World unit :=
  let attr := Mapper.get_property_by_column mapper_ col in
  me ← load_model self;
  if negb (odict.contains (ColumnProperty.key attr) (primary_keys me)) then
    update_model self
      (set_primary_keys
         (odict.set (ColumnProperty.key attr) (column_info.__init__ attr col)))
  else mret tt.

Definition record_column (self : nat) (mapper_ : Mapper.t) (col : Column.t)
  : Py World unit :=
  let attr := Mapper.get_property_by_column mapper_ col in
  me ← load_model self;
  if negb (odict.contains (ColumnProperty.key attr) (primary_keys me))
     && negb (odict.contains (ColumnProperty.key attr) (properties me)) then
    update_model self
      (set_properties
         (odict.set (ColumnProperty.key attr) (column_info.__init__ attr col)))
  else mret tt.

Definition record_composite (self : nat) (composite : CompositeProperty.t)
  : Py World unit :=
  me ← load_model self;
  if negb (odict.contains (CompositeProperty.key composite) (composites me)) then
    c ← composite_info_call (OAttribute (model_class me) composite);
    update_model self
      (set_composites (odict.set (CompositeProperty.key composite) c))
  else mret tt.

Definition record_relationship (self : nat)
    (relationship : RelationshipProperty.t) : Py World unit :=
  me ← load_model self;
  if negb (odict.contains (RelationshipProperty.key relationship)
             (relationships me)) then
    update_model self
      (set_relationships
         (odict.set (RelationshipProperty.key relationship)
            (relation_info.__init__ relationship)))
  else mret tt.

Definition _configure (self : nat) (mapper_ : Mapper.t) (class_ : string)
  : Py World unit :=
  me ← load_model self;
  assert (bool_decide (Mapper.ident mapper_ = Mapper.ident (mapper me))) ;;
  assert (bool_decide (class_ = model_class me)) ;;
  for_ (Mapper.primary_key (mapper me)) (record_primary_key self (mapper me)) ;;
  for_ (Mapper.columns (mapper me)) (record_column self (mapper me)) ;;
  for_ (Mapper.composites (mapper me)) (record_composite self) ;;
  for_ (Mapper.relationships (mapper me)) (record_relationship self).

(** The slots as [__init__] sets them before it calls [_configure]. *)
Definition blank (m : Mapper.t) (c : string) : model_info_object.t :=
  {| mapper := m; properties := odict.empty; _field_names := None;
     model_class := c; composites := odict.empty;
     primary_keys := odict.empty; relationships := odict.empty |}.

Section with_inspect.
(** [sa.inspect] on a class: its mapper, when the class is mapped. *)
Variable sa_inspect : string → option Mapper.t.

(** [super().__call__(model)]: a new instance, then [__init__].  On a class
    that is not mapped [sa.inspect] raises [NoInspectionAvailable]; on the
    attribute of a composite it returns the attribute, on which
    [event.listen] then raises [AttributeError].  In both cases [__init__] is
    left before [_configure] runs, and the new instance, to which nothing
    refers, is not allocated here.  [__call__] passes no mapper, having
    replaced it by its class. *)
Definition construct (model : PyObject) : Py World nat :=
  match model with
  | OClass c =>
      match sa_inspect c with
      | Some m =>
          self ← alloc (IModel (blank m c));
          _configure self m c ;;
          mret self
      | None => raise NoInspectionAvailable
      end
  | _ => raise AttributeError
  end.

Definition call : PyObject → Py World nat :=
  model_info_meta.__call__ construct.
End with_inspect.

(** The "mapper_configured" listener registered by [__init__]: the
    framework calls [_configure] with the mapper and its class. *)
Definition mapper_configured (self : nat) : Py World unit :=
  me ← load_model self;
  _configure self (mapper me) (model_class me).

Definition compute_field_names (o : model_info_object.t) : list string :=
  filter (λ attr, negb (startswith_underscore attr))
    (odict.keys (primary_keys o) ++ odict.keys (properties o)
     ++ odict.keys (composites o) ++ odict.keys (relationships o))%list.

Definition field_names (self : nat) : Py World (list string) :=
  me ← load_model self;
  (if match _field_names me with Some (_ :: _) => false | _ => true end then
     update_model self (set_field_names (Some (compute_field_names me)))
   else mret tt) ;;
  me ← load_model self;
  match _field_names me with
  | Some l => mret l
  | None => mret []
  end.

End model_info.

(** ** The lifetime of the registry *)

(** [composite.field_names] on the instance at an address. *)
Definition composite_field_names (set_iter : gset string → list string)
    (self : nat) : Py World FieldNames := fun w =>
  match heap w !! self with
  | Some (IComposite o) =>
      let '(r, o') := composite_info.field_names set_iter o in
      (r, set_heap (insert self (IComposite o')) w)
  | _ => (inl AttributeError, w)
  end.

(** What happens to the registry and to the instances during the life of
    the process: descriptors are requested, the framework notifies
    instances that their mapper is configured, field names are read. *)
Inductive Event : Type :=
  | Request_model_info (model : PyObject)
  | Request_composite_info (composite : PyObject)
  | Mapper_configured (self : nat)
  | Read_field_names (self : nat)
  | Read_composite_field_names (self : nat).

Section lifetime.
Variable sa_inspect : string → option Mapper.t.
Variable set_iter : gset string → list string.

Definition handle (ev : Event) : Py World unit :=
  match ev with
  | Request_model_info model => model_info.call sa_inspect model ;; mret ()
  | Request_composite_info composite => composite_info_call composite ;; mret ()
  | Mapper_configured self => model_info.mapper_configured self
  | Read_field_names self => model_info.field_names self ;; mret ()
  | Read_composite_field_names self =>
      composite_field_names set_iter self ;; mret ()
  end.

(** The state after a sequence of events; an exception raised by one of
    them leaves the state it had reached. *)
Definition run (events : list Event) (w : World) : World :=
  foldl (λ w ev, (handle ev w).2) w events.
End lifetime.

(** * Vocabulary of the properties *)

(** One iteration of a loop [if k not in d: d[k] = v], for the element [x]
    of the sequence iterated over: [skip] is an additional guard, [kf] and
    [vf] give the name and the descriptor. *)
Definition add_absent {A V : Type} (skip : A → bool) (kf : A → string)
    (vf : A → V) (d : odict.t V) (x : A) : odict.t V :=
  if skip x then d
  else if odict.contains (kf x) d then d
  else odict.set (kf x) (vf x) d.

(** [self] refers to the [model_info] instance [o]. *)
Definition model_at (w : World) (self : nat) (o : model_info_object.t) : Prop :=
  heap w !! self = Some (IModel o).

Definition put_model (self : nat) (o : model_info_object.t) (w : World) : World :=
  set_heap (insert self (IModel o)) w.

(** The name and the descriptor recorded for a column. *)
Definition column_key (m : Mapper.t) (col : Column.t) : string :=
  ColumnProperty.key (Mapper.get_property_by_column m col).

Definition column_descriptor (m : Mapper.t) (col : Column.t) : column_info.t :=
  column_info.__init__ (Mapper.get_property_by_column m col) col.

(** Every name the mapper offers is recorded in the instance. *)
Definition recorded (o : model_info_object.t) : Prop :=
  let m := model_info_object.mapper o in
  Forall (λ col, column_key m col
                 ∈ odict.keys (model_info_object.primary_keys o))
    (Mapper.primary_key m)
  ∧ Forall (λ col, column_key m col
                   ∈ odict.keys (model_info_object.primary_keys o)
                   ∨ column_key m col
                     ∈ odict.keys (model_info_object.properties o))
      (Mapper.columns m)
  ∧ Forall (λ c, CompositeProperty.key c
                 ∈ odict.keys (model_info_object.composites o))
      (Mapper.composites m)
  ∧ Forall (λ r, RelationshipProperty.key r
                 ∈ odict.keys (model_info_object.relationships o))
      (Mapper.relationships m).


(** The class of the [model_info] instance at an address, if any. *)
Definition model_class_at (w : World) (l : nat) : option string :=
  match heap w !! l with
  | Some (IModel o) => Some (model_info_object.model_class o)
  | _ => None
  end.

(** How the state evolves while composites are registered and instances
    are updated: the registry gains entries for composite attributes only
    and loses none, and the [model_info] instances stay where they are. *)
Definition evolves (w w' : World) : Prop :=
  (∀ k, match k with
        | KAttribute _ _ =>
            ∀ l, _registry w !! k = Some l → _registry w' !! k = Some l
        | _ => _registry w' !! k = _registry w !! k
        end)
  ∧ (∀ l, model_class_at w' l = model_class_at w l).

(** A computation every step of which is such an evolution, whether it
    returns or raises. *)
Definition evolving {A} (m : Py World A) : Prop := ∀ w, evolves w (m w).2.

(** Every [model_info] instance is the one registered for its class. *)
Definition registered_models (w : World) : Prop :=
  ∀ l c, model_class_at w l = Some c → _registry w !! KClass c = Some l.

(** [s.replace("_", " ")], character by character. *)
Fixpoint underscores_to_spaces (s : string) : string :=
  match s with
  | EmptyString => EmptyString
  | String c s' =>
      String (if Ascii.eqb c "_"%char then " "%char else c)
        (underscores_to_spaces s')
  end.

(** The keys [field_kwargs] can assign. *)
Definition field_kwargs_keys : list string :=
  ["label"; "help_text"; "enum_class"; "choices"; "max_digits";
   "decimal_places"; "max_length"; "required"; "validators"].

(** The names bound to a [Column] in the [vars()] of a class. *)
Definition column_vars (cls : CompositeClass.t) : list string :=
  (filter (λ kv, isinstance_Column kv.2)
     (map_to_list (CompositeClass.vars cls))).*1.

(** Every class the registry knows is bound to a [model_info] instance of
    that class. *)
Definition registry_of_models (w : World) : Prop :=
  ∀ c l, _registry w !! KClass c = Some l → model_class_at w l = Some c.

(** * Sample inputs

    Concrete mapped objects on which the properties below are exercised. *)

(** A column type that exposes [enums] and no [enum_class] attribute. *)
Definition enums_only_column : column_info.t :=
  column_info.__init__
    {| ColumnProperty.key := "status"; ColumnProperty.doc := VNone;
       ColumnProperty.parent_class := "Order" |}
    {| Column.name := "order.status";
       Column.type :=
         {| ColumnType.enum_class := None;
            ColumnType.enums := Some (VList ["new"; "paid"]);
            ColumnType.precision := None; ColumnType.scale := None;
            ColumnType.python_type := inr (VClass "str");
            ColumnType.length := None |};
       Column.nullable := Some false; Column.info := Some ∅ |}.

(** A [Numeric(10, 2)] column [unit_price], not nullable. *)
Definition price_column : column_info.t :=
  column_info.__init__
    {| ColumnProperty.key := "unit_price"; ColumnProperty.doc := VNone;
       ColumnProperty.parent_class := "Order" |}
    {| Column.name := "order.unit_price";
       Column.type :=
         {| ColumnType.enum_class := None; ColumnType.enums := None;
            ColumnType.precision := Some (VInt 10);
            ColumnType.scale := Some (VInt 2);
            ColumnType.python_type := inr Decimal;
            ColumnType.length := None |};
       Column.nullable := Some false; Column.info := Some ∅ |}.

(** The same column when its type is a decorator that keeps [precision]
    and [scale] and does not implement [python_type]. *)
Definition decorated_numeric_column : column_info.t :=
  column_info.__init__
    {| ColumnProperty.key := "unit_price"; ColumnProperty.doc := VNone;
       ColumnProperty.parent_class := "Order" |}
    {| Column.name := "order.unit_price";
       Column.type :=
         {| ColumnType.enum_class := None; ColumnType.enums := None;
            ColumnType.precision := Some (VInt 10);
            ColumnType.scale := Some (VInt 2);
            ColumnType.python_type := inl NotImplementedError;
            ColumnType.length := None |};
       Column.nullable := Some false; Column.info := Some ∅ |}.

(** A [String(50)] column [title] whose [info] says that it is not
    required. *)
Definition title_column : column_info.t :=
  column_info.__init__
    {| ColumnProperty.key := "title"; ColumnProperty.doc := VStr "The title";
       ColumnProperty.parent_class := "Order" |}
    {| Column.name := "order.title";
       Column.type :=
         {| ColumnType.enum_class := None; ColumnType.enums := None;
            ColumnType.precision := None; ColumnType.scale := None;
            ColumnType.python_type := inr (VClass "str");
            ColumnType.length := Some (VInt 50) |};
       Column.nullable := Some false;
       Column.info := Some {["required" := VBool false]} |}.

(** A relationship of [Child] to [Parent] over the given tables. *)
Definition mk_relationship (parent_table target : Table.t)
    (pairs : list (string * string)) : relation_info.t :=
  relation_info.__init__
    {| RelationshipProperty.key := "parent";
       RelationshipProperty.parent_class := "Child";
       RelationshipProperty.parent_table := parent_table;
       RelationshipProperty.mapper_class := "Parent";
       RelationshipProperty.mapper_table := target;
       RelationshipProperty.target := target;
       RelationshipProperty.direction := MANYTOONE;
       RelationshipProperty.local_remote_pairs := pairs;
       RelationshipProperty.uselist := false |}.

Definition fk (parent column : string) : ForeignKey.t :=
  {| ForeignKey.parent := parent; ForeignKey.column := inr column |}.

(** A target with a single-column primary key, fully mapped. *)
Definition user_table : Table.t :=
  {| Table.name := "user"; Table.primary_key := ["user.id"];
     Table.constraints := [OtherConstraint "user_pkey"] |}.

Definition post_table : Table.t :=
  {| Table.name := "post"; Table.primary_key := ["post.id"];
     Table.constraints :=
       [OtherConstraint "post_pkey";
        AForeignKeyConstraint
          {| ForeignKeyConstraint.elements := [fk "post.user_id" "user.id"] |}] |}.

Definition post_author : relation_info.t :=
  mk_relationship post_table user_table [("post.user_id", "user.id")].

(** A target with a two-column primary key of which the relationship maps
    one column; the owning table declares the foreign key over both. *)
Definition parent_table2 : Table.t :=
  {| Table.name := "parent";
     Table.primary_key := ["parent.id"; "parent.tenant"];
     Table.constraints := [OtherConstraint "parent_pkey"] |}.

Definition child_fk : ForeignKeyConstraint.t :=
  {| ForeignKeyConstraint.elements :=
       [fk "child.tenant" "parent.tenant"; fk "child.parent_id" "parent.id"] |}.

Definition child_table : Table.t :=
  {| Table.name := "child"; Table.primary_key := ["child.id"];
     Table.constraints :=
       [OtherConstraint "child_pkey"; AForeignKeyConstraint child_fk] |}.

Definition child_parent : relation_info.t :=
  mk_relationship child_table parent_table2 [("child.parent_id", "parent.id")].

(** The same relationship when two declared foreign keys cover it. *)
Definition child_table_two_fks : Table.t :=
  {| Table.name := "child"; Table.primary_key := ["child.id"];
     Table.constraints :=
       [AForeignKeyConstraint child_fk;
        AForeignKeyConstraint
          {| ForeignKeyConstraint.elements :=
               [fk "child.parent_id" "parent.id";
                fk "child.owner" "parent.tenant"] |}] |}.

Definition child_parent_ambiguous : relation_info.t :=
  mk_relationship child_table_two_fks parent_table2
    [("child.parent_id", "parent.id")].

(** The same relationship when the only foreign key of the owning table
    refers to a table that is not declared. *)
Definition child_table_dangling : Table.t :=
  {| Table.name := "child"; Table.primary_key := ["child.id"];
     Table.constraints :=
       [AForeignKeyConstraint
          {| ForeignKeyConstraint.elements :=
               [{| ForeignKey.parent := "child.parent_id";
                   ForeignKey.column := inl NoReferencedTableError |}] |}] |}.

Definition child_parent_dangling : relation_info.t :=
  mk_relationship child_table_dangling parent_table2
    [("child.parent_id", "parent.id")].

(** A composite [start] of class [Point] over two columns of [Vertex];
    the class declares no column attribute, so that the attribute names are
    the parameter names of its constructor. *)
Definition sub_property (key column : string) : ColumnProperty.t * Column.t :=
  ({| ColumnProperty.key := key; ColumnProperty.doc := VNone;
      ColumnProperty.parent_class := "Vertex" |},
   {| Column.name := column;
      Column.type :=
        {| ColumnType.enum_class := None; ColumnType.enums := None;
           ColumnType.precision := None; ColumnType.scale := None;
           ColumnType.python_type := inr (VClass "float");
           ColumnType.length := None |};
      Column.nullable := Some true; Column.info := Some ∅ |}).

Definition composite_of (init_args : list string) : CompositeProperty.t :=
  {| CompositeProperty.key := "start";
     CompositeProperty.composite_class :=
       {| CompositeClass.name := "Point"; CompositeClass.vars := ∅;
          CompositeClass.init_args := init_args |};
     CompositeProperty.props :=
       [(sub_property "x1" "vertex.x1").1; (sub_property "y1" "vertex.y1").1];
     CompositeProperty.columns :=
       [(sub_property "x1" "vertex.x1").2; (sub_property "y1" "vertex.y1").2] |}.

Definition point_composite : CompositeProperty.t := composite_of ["x"; "y"].

Definition private_point_composite : CompositeProperty.t :=
  composite_of ["_x"; "y"].

(** A column of [Vertex]. *)
Definition vertex_column (name : string) : Column.t :=
  (sub_property name name).2.

(** The model [Vertex]: primary key [id], the columns [x1] and [y1] behind
    the composite [start], and a relationship [parent]. *)
Definition vertex_mapper : Mapper.t :=
  {| Mapper.ident := 1;
     Mapper.class_ := "Vertex";
     Mapper.primary_key := [vertex_column "vertex.id"];
     Mapper.columns :=
       [vertex_column "vertex.id"; vertex_column "vertex.x1";
        vertex_column "vertex.y1"];
     Mapper.get_property_by_column := λ col,
       {| ColumnProperty.key :=
            String.substring 7 (String.length (Column.name col) - 7)
              (Column.name col);
          ColumnProperty.doc := VNone;
          ColumnProperty.parent_class := "Vertex" |};
     Mapper.composites := [point_composite];
     Mapper.relationships := [relation_info.relationship child_parent] |}.

(** [sa.inspect] when [Vertex] is the only mapped class. *)
Definition vertex_inspect (c : string) : option Mapper.t :=
  if String.eqb c "Vertex" then Some vertex_mapper else None.

(** A state in which an instance for [Vertex] has just been allocated. *)
Definition vertex_allocated : World :=
  put_model 0 (model_info.blank vertex_mapper "Vertex") empty_world.

(** What a client may do after the first request. *)
Definition later_events : list Event :=
  [Request_composite_info (OAttribute "Vertex" point_composite);
   Mapper_configured 0;
   Read_field_names 0;
   Read_composite_field_names 1;
   Request_model_info (OMapper vertex_mapper);
   Request_model_info (OClass "Edge")].

(** The composite [start] when both parameters of the constructor are
    private. *)
Definition hidden_point_composite : CompositeProperty.t :=
  composite_of ["_x"; "_y"].

(** A relationship whose raw pairs carry the remote column twice. *)
Definition post_author_twice : relation_info.t :=
  mk_relationship post_table user_table
    [("post.editor_id", "user.id"); ("post.user_id", "user.id")].

(** [Child] to [Parent] with both columns of the key mapped, the raw pairs
    in the two orders. *)
Definition child_parent_full : relation_info.t :=
  mk_relationship child_table parent_table2
    [("child.parent_id", "parent.id"); ("child.tenant", "parent.tenant")].

Definition child_parent_full_swapped : relation_info.t :=
  mk_relationship child_table parent_table2
    [("child.tenant", "parent.tenant"); ("child.parent_id", "parent.id")].

(** [child_table] with its constraints declared in the other order. *)
Definition child_table_fk_first : Table.t :=
  {| Table.name := "child"; Table.primary_key := ["child.id"];
     Table.constraints :=
       [AForeignKeyConstraint child_fk; OtherConstraint "child_pkey"] |}.

Definition child_parent_fk_first : relation_info.t :=
  mk_relationship child_table_fk_first parent_table2
    [("child.parent_id", "parent.id")].

(** The state after [model_info(Vertex)] in an empty registry, and the
    instance it has built. *)
Definition vertex_registered : World :=
  (model_info.call vertex_inspect (OClass "Vertex") empty_world).2.

Definition vertex_model : model_info_object.t :=
  match heap vertex_registered !! 0 with
  | Some (IModel o) => o
  | _ => model_info.blank vertex_mapper "Vertex"
  end.

(** * Properties *)

(** ** The state-and-exception monad *)

Ltac py_unfold :=
  unfold mbind, mret, Py_bind, Py_ret, suppress, modify, raise, py_getattr,
    py_read, get_state, assert in *.

Lemma bind_inr {St A B} (m : Py St A) (k : A → Py St B) (s s' : St) (a : A) :
  m s = (inr a, s') → (m ≫= k) s = k a s'.
Proof. unfold mbind, Py_bind. by intros ->. Qed.

Lemma bind_inl {St A B} (m : Py St A) (k : A → Py St B) (s s' : St) (e : PyExn) :
  m s = (inl e, s') → (m ≫= k) s = (inl e, s').
Proof. unfold mbind, Py_bind. by intros ->. Qed.

Lemma assert_true {St} (s : St) : assert true s = (inr (), s).
Proof. reflexivity. Qed.

(** ** Ordered dictionaries *)

Section odict_facts.
Context {V : Type}.
Implicit Types (d : odict.t V) (k x : string) (v : V).

Lemma odict_keys_set k v d x :
  x ∈ odict.keys (odict.set k v d) ↔ x = k ∨ x ∈ odict.keys d.
Proof.
  unfold odict.keys. induction d as [|[k' v'] d IH]; simpl.
  - rewrite list_elem_of_singleton, elem_of_nil. tauto.
  - destruct (decide (k = k')) as [->|]; simpl;
      rewrite !elem_of_cons; [tauto|]. rewrite IH. tauto.
Qed.

Lemma odict_contains_true k d : odict.contains k d = true ↔ k ∈ odict.keys d.
Proof. unfold odict.contains. by rewrite bool_decide_eq_true. Qed.

Lemma odict_contains_false k d : odict.contains k d = false ↔ k ∉ odict.keys d.
Proof. unfold odict.contains. by rewrite bool_decide_eq_false. Qed.

(** Assigning to an absent key appends the entry. *)
Lemma odict_set_fresh k v d :
  k ∉ odict.keys d → odict.set k v d = (d ++ [(k, v)])%list.
Proof.
  unfold odict.keys. induction d as [|[k' v'] d IH]; simpl; [done|].
  rewrite not_elem_of_cons. intros [? ?].
  destruct (decide (k = k')); [done|]. by rewrite IH.
Qed.

Lemma odict_get_Some k d : is_Some (odict.get k d) ↔ k ∈ odict.keys d.
Proof.
  unfold odict.keys. induction d as [|[k' v'] d IH]; simpl.
  - rewrite elem_of_nil. split; [by intros [? ?]|done].
  - rewrite elem_of_cons. destruct (decide (k = k')); [|rewrite IH; tauto].
    split; [auto|by eexists].
Qed.
End odict_facts.

(** ** Guarded insertion into an ordered dictionary *)

Section guarded_insertion.
Context {A V : Type}.
Variables (skip : A → bool) (kf : A → string) (vf : A → V).

Lemma add_absent_prefix (d : odict.t V) (l : list A) :
  d `prefix_of` foldl (add_absent skip kf vf) d l.
Proof.
  revert d. induction l as [|x l IH]; intros d; simpl; [done|].
  etrans; [|apply IH]. unfold add_absent.
  destruct (skip x); [done|].
  destruct (odict.contains (kf x) d) eqn:E; [done|].
  apply odict_contains_false in E. rewrite odict_set_fresh by done.
  by apply prefix_app_r.
Qed.

Lemma add_absent_keys (d : odict.t V) (l : list A) (k : string) :
  k ∈ odict.keys (foldl (add_absent skip kf vf) d l)
  ↔ k ∈ odict.keys d ∨ ∃ x, x ∈ l ∧ skip x = false ∧ kf x = k.
Proof.
  revert d. induction l as [|x l IH]; intros d; simpl.
  - split; [auto|]. intros [?|(? & []%elem_of_nil & _)]. done.
  - rewrite IH. unfold add_absent. setoid_rewrite elem_of_cons.
    destruct (skip x) eqn:Es;
      [|destruct (odict.contains (kf x) d) eqn:E;
        [apply odict_contains_true in E|rewrite odict_keys_set]].
    + split.
      * intros [?|(y & ? & ? & ?)]; [by left|right; exists y; auto].
      * intros [?|(y & [->|?] & ? & ?)];
          [by left|congruence|right; exists y; auto].
    + split.
      * intros [?|(y & ? & ? & ?)]; [by left|right; exists y; auto].
      * intros [?|(y & [->|?] & ? & <-)];
          [by left|by left|right; exists y; auto].
    + split.
      * intros [[->|?]|(y & ? & ? & ?)];
          [right; exists x; auto|by left|right; exists y; auto].
      * intros [?|(y & [->|?] & ? & <-)];
          [by left; right|by left; left|right; exists y; auto].
Qed.

Lemma add_absent_NoDup (d : odict.t V) (l : list A) :
  NoDup (odict.keys d) → NoDup (odict.keys (foldl (add_absent skip kf vf) d l)).
Proof.
  revert d. induction l as [|x l IH]; intros d ND; simpl; [done|].
  apply IH. unfold add_absent. destruct (skip x); [done|].
  destruct (odict.contains (kf x) d) eqn:E; [done|].
  apply odict_contains_false in E. rewrite odict_set_fresh by done.
  unfold odict.keys in *. rewrite fmap_app. simpl.
  apply NoDup_app. split_and!; [done| |apply NoDup_singleton].
  intros k Hk ->%list_elem_of_singleton. done.
Qed.

Lemma add_absent_entries (d : odict.t V) (l : list A) (k : string) (v : V) :
  (k, v) ∈ foldl (add_absent skip kf vf) d l →
  (k, v) ∈ d ∨ ∃ x, x ∈ l ∧ skip x = false ∧ kf x = k ∧ vf x = v.
Proof.
  revert d. induction l as [|x l IH]; intros d; simpl; [auto|].
  intros [H|(y & ? & ?)]%IH; [|right; exists y; by rewrite elem_of_cons; auto].
  unfold add_absent in H. destruct (skip x) eqn:Es; [auto|].
  destruct (odict.contains (kf x) d) eqn:E; [auto|].
  apply odict_contains_false in E. rewrite odict_set_fresh in H by done.
  apply elem_of_app in H as [?|[= -> ->]%list_elem_of_singleton]; [auto|].
  right. exists x. rewrite elem_of_cons. auto.
Qed.

(** When every name is already recorded the loop changes nothing. *)
Lemma add_absent_recorded (d : odict.t V) (l : list A) :
  Forall (λ x, skip x = true ∨ kf x ∈ odict.keys d) l →
  foldl (add_absent skip kf vf) d l = d.
Proof.
  induction 1 as [|x l [Hx|Hx] _ IH]; simpl; [done|..];
    unfold add_absent at 2.
  - by rewrite Hx.
  - apply odict_contains_true in Hx. rewrite Hx. by destruct (skip x).
Qed.
End guarded_insertion.

(** ** [column_info.field_kwargs] *)

Section column_info_facts.
Import column_info.
Variable unicode_capfirst : string → string.
Variable self : column_info.t.

Let ty : ColumnType.t := Column.type (column self).

Let kwargs0 : gmap string PyVal :=
  <["help_text" := ColumnProperty.doc (property self)]>
    (<["label" := VStr (label unicode_capfirst self)]> ∅).

(** What each guarded block does to the dictionary, and whether an
    exception leaves it. *)
Lemma enum_block_result (kw : gmap string PyVal) :
  suppress AttributeError (enum_block self) kw
  = (inr (),
     match ColumnType.enum_class ty with
     | Some v =>
         if is_none v then
           match ColumnType.enums ty with
           | Some e => <["choices" := e]> kw
           | None => kw
           end
         else <["enum_class" := v]> kw
     | None => kw
     end).
Proof.
  unfold enum_block. py_unfold. subst ty.
  destruct (ColumnType.enum_class _) as [v|]; simpl; [|done].
  destruct (is_none v); simpl; [|done]. by destruct (ColumnType.enums _).
Qed.

Lemma decimal_block_result (kw : gmap string PyVal) :
  suppress AttributeError (decimal_block self) kw
  = match ColumnType.precision ty, ColumnType.scale ty with
    | Some p, Some s =>
        match ColumnType.python_type ty with
        | inr t =>
            (inr (),
             if is_Decimal t then
               <["decimal_places" := s]> (<["max_digits" := p]> kw)
             else kw)
        | inl e => (if decide (e = AttributeError) then inr () else inl e, kw)
        end
    | _, _ => (inr (), kw)
    end.
Proof.
  unfold decimal_block. py_unfold. subst ty.
  destruct (ColumnType.precision _); simpl; [|done].
  destruct (ColumnType.scale _); simpl; [|done].
  destruct (ColumnType.python_type _) as [e|t]; simpl;
    [by destruct (decide (e = AttributeError))|].
  by destruct (is_Decimal t).
Qed.

Lemma length_block_result (kw : gmap string PyVal) :
  suppress AttributeError (length_block self) kw
  = (inr (),
     match ColumnType.length ty with
     | Some v => <["max_length" := v]> kw
     | None => kw
     end).
Proof.
  unfold length_block. py_unfold. subst ty. by destruct (ColumnType.length _).
Qed.

(** A block that returns leaves every key that is not its own as it
    was. *)
Lemma enum_block_frame (kw kw' : gmap string PyVal) (k : string) :
  suppress AttributeError (enum_block self) kw = (inr (), kw') →
  k ≠ "enum_class" → k ≠ "choices" → kw' !! k = kw !! k.
Proof.
  rewrite enum_block_result. intros [= <-] ??.
  destruct (ColumnType.enum_class ty) as [v|]; [|done].
  destruct (is_none v); [destruct (ColumnType.enums ty)|]; by simplify_map_eq.
Qed.

Lemma decimal_block_frame (kw kw' : gmap string PyVal) (k : string) :
  suppress AttributeError (decimal_block self) kw = (inr (), kw') →
  k ≠ "max_digits" → k ≠ "decimal_places" → kw' !! k = kw !! k.
Proof.
  rewrite decimal_block_result. intros H ??.
  destruct (ColumnType.precision ty); [|by injection H as <-].
  destruct (ColumnType.scale ty); [|by injection H as <-].
  destruct (ColumnType.python_type ty) as [e|t]; [by injection H as _ <-|].
  injection H as <-. destruct (is_Decimal t); by simplify_map_eq.
Qed.

Lemma length_block_frame (kw kw' : gmap string PyVal) (k : string) :
  suppress AttributeError (length_block self) kw = (inr (), kw') →
  k ≠ "max_length" → kw' !! k = kw !! k.
Proof.
  rewrite length_block_result. intros [= <-] ?.
  destruct (ColumnType.length ty); by simplify_map_eq.
Qed.

(** The keys a block can add. *)
Lemma enum_block_keys (kw kw' : gmap string PyVal) (k : string) :
  suppress AttributeError (enum_block self) kw = (inr (), kw') →
  is_Some (kw' !! k) → is_Some (kw !! k) ∨ k = "enum_class" ∨ k = "choices".
Proof.
  rewrite enum_block_result. intros [= <-].
  destruct (ColumnType.enum_class ty) as [v|]; [|auto].
  destruct (is_none v); [destruct (ColumnType.enums ty); [|auto]|];
    rewrite lookup_insert_is_Some; intros [<-|[_ ?]]; auto.
Qed.

Lemma decimal_block_keys (kw kw' : gmap string PyVal) (k : string) :
  suppress AttributeError (decimal_block self) kw = (inr (), kw') →
  is_Some (kw' !! k) →
  is_Some (kw !! k) ∨ k = "max_digits" ∨ k = "decimal_places".
Proof.
  rewrite decimal_block_result. intros H.
  destruct (ColumnType.precision ty); [|injection H as <-; auto].
  destruct (ColumnType.scale ty); [|injection H as <-; auto].
  destruct (ColumnType.python_type ty) as [e|t]; [injection H as _ <-; auto|].
  injection H as <-. destruct (is_Decimal t); [|auto].
  rewrite !lookup_insert_is_Some. intros [<-|[_ [<-|[_ ?]]]]; auto.
Qed.

Lemma length_block_keys (kw kw' : gmap string PyVal) (k : string) :
  suppress AttributeError (length_block self) kw = (inr (), kw') →
  is_Some (kw' !! k) → is_Some (kw !! k) ∨ k = "max_length".
Proof.
  rewrite length_block_result. intros [= <-].
  destruct (ColumnType.length ty); [|auto].
  rewrite lookup_insert_is_Some. intros [<-|[_ ?]]; auto.
Qed.

(** The reads of [field_kwargs] that no [suppress] makes harmless: the
    decimal block is left by an exception only when [precision] and [scale]
    are there and the read of [python_type] raises something else than
    [AttributeError]. *)
Lemma decimal_block_returns (kw : gmap string PyVal) :
  (∀ p s e, ColumnType.precision ty = Some p → ColumnType.scale ty = Some s →
            ColumnType.python_type ty = inl e → e = AttributeError) →
  ∃ kw', suppress AttributeError (decimal_block self) kw = (inr (), kw').
Proof.
  intros Hpt. rewrite decimal_block_result.
  destruct (ColumnType.precision ty) as [p|]; [|eauto].
  destruct (ColumnType.scale ty) as [s|]; [|eauto].
  destruct (ColumnType.python_type ty) as [e|t]; [|eauto].
  rewrite (Hpt p s e) by done. rewrite decide_True by done. eauto.
Qed.

(** [field_kwargs] block by block, when every block returns and the
    column has [info] and [nullable]. *)
Lemma field_kwargs_blocks (info : gmap string PyVal) (nullable : bool)
    (kw1 kw2 kw3 : gmap string PyVal) :
  Column.info (column self) = Some info →
  Column.nullable (column self) = Some nullable →
  suppress AttributeError (enum_block self) kwargs0 = (inr (), kw1) →
  suppress AttributeError (decimal_block self) kw1 = (inr (), kw2) →
  suppress AttributeError (length_block self) kw2 = (inr (), kw3) →
  field_kwargs unicode_capfirst self
  = inr (<["validators" := dict_get info "validators" (VList [])]>
           (<["required" :=
                dict_get info "required" (VBool (negb nullable))]> kw3)).
Proof.
  intros Hi Hn E1 E2 E3. unfold field_kwargs, field_kwargs_body. fold kwargs0.
  rewrite (bind_inr _ _ _ _ _ E1), (bind_inr _ _ _ _ _ E2),
    (bind_inr _ _ _ _ _ E3).
  rewrite Hi, Hn. reflexivity.
Qed.

(** Conversely, a bundle is returned only in that way. *)
Lemma field_kwargs_inv (kwargs : gmap string PyVal) :
  field_kwargs unicode_capfirst self = inr kwargs →
  ∃ (info : gmap string PyVal) (nullable : bool) (kw1 kw2 kw3 : gmap string PyVal),
    Column.info (column self) = Some info
    ∧ Column.nullable (column self) = Some nullable
    ∧ suppress AttributeError (enum_block self) kwargs0 = (inr (), kw1)
    ∧ suppress AttributeError (decimal_block self) kw1 = (inr (), kw2)
    ∧ suppress AttributeError (length_block self) kw2 = (inr (), kw3)
    ∧ kwargs
      = <["validators" := dict_get info "validators" (VList [])]>
          (<["required" :=
               dict_get info "required" (VBool (negb nullable))]> kw3).
Proof.
  unfold field_kwargs, field_kwargs_body. fold kwargs0.
  rewrite (bind_inr _ _ _ _ _ (enum_block_result _)).
  set (kw1 := match ColumnType.enum_class ty with Some _ => _ | None => _ end).
  destruct (suppress AttributeError (decimal_block self) kw1) as [[e|[]] kw2]
    eqn:E2; [by rewrite (bind_inl _ _ _ _ _ E2)|].
  rewrite (bind_inr _ _ _ _ _ E2), (bind_inr _ _ _ _ _ (length_block_result _)).
  set (kw3 := match ColumnType.length ty with Some _ => _ | None => _ end).
  destruct (Column.info (column self)) as [info|] eqn:Hi; [|done].
  destruct (Column.nullable (column self)) as [nullable|] eqn:Hn; [|done].
  intros [= <-]. exists info, nullable, kw1, kw2, kw3.
  split_and!; try done; [apply enum_block_result|apply length_block_result].
Qed.

(** The keys set first are still there at the end. *)
Lemma field_kwargs_first_keys (kwargs : gmap string PyVal) :
  field_kwargs unicode_capfirst self = inr kwargs →
  kwargs !! "label" = Some (VStr (label unicode_capfirst self))
  ∧ kwargs !! "help_text" = Some (ColumnProperty.doc (property self)).
Proof.
  intros (info & nullable & kw1 & kw2 & kw3 & _ & _ & E1 & E2 & E3 & ->)
    %field_kwargs_inv.
  rewrite !lookup_insert_ne by done.
  rewrite !(length_block_frame _ _ _ E3), !(decimal_block_frame _ _ _ E2),
    !(enum_block_frame _ _ _ E1) by done.
  subst kwargs0. split; by simplify_map_eq.
Qed.

End column_info_facts.

(** The label of the property [first_name]. *)
Example label_first_name (unicode_capfirst : string → string) :
  capfirst unicode_capfirst (join " " (split "_"%char "first_name"))
  = "First name".
Proof. reflexivity. Qed.

(** C10, as the code has it.  For a column that has [info] and [nullable],
    and whose type does not raise anything else than [AttributeError] when
    [python_type] is read after [precision] and [scale], [field_kwargs]
    returns, and the bundle contains the keys [label], [help_text],
    [required] and [validators], with the values the code assigns to them,
    whatever optional attributes (enum class, enumerated values, precision
    and scale, length) the column type exposes or not. *)
Theorem field_kwargs_base_keys (unicode_capfirst : string → string)
    (self : column_info.t) (info : gmap string PyVal) (nullable : bool) :
  let ty := Column.type (column_info.column self) in
  Column.info (column_info.column self) = Some info →
  Column.nullable (column_info.column self) = Some nullable →
  (∀ p s e, ColumnType.precision ty = Some p → ColumnType.scale ty = Some s →
            ColumnType.python_type ty = inl e → e = AttributeError) →
  ∃ kwargs : gmap string PyVal,
    column_info.field_kwargs unicode_capfirst self = inr kwargs
    ∧ kwargs !! "label"
        = Some (VStr (column_info.label unicode_capfirst self))
    ∧ kwargs !! "help_text"
        = Some (ColumnProperty.doc (column_info.property self))
    ∧ kwargs !! "required"
        = Some (dict_get info "required" (VBool (negb nullable)))
    ∧ kwargs !! "validators" = Some (dict_get info "validators" (VList [])).
Proof.
  intros ty Hi Hn Hpt.
  edestruct (decimal_block_returns self) as [kw2 E2]; [exact Hpt|].
  pose proof (field_kwargs_blocks unicode_capfirst self info nullable _ _ _
                Hi Hn (enum_block_result self _) E2
                (length_block_result self _)) as E.
  eexists. split; [exact E|].
  destruct (field_kwargs_first_keys unicode_capfirst self _ E) as [-> ->].
  split_and!; by simplify_map_eq.
Qed.

(** C10 as stated fails: for a column whose type has [precision] and
    [scale] and raises [NotImplementedError] when [python_type] is read,
    [field_kwargs] raises, and there is no bundle. *)
Lemma field_kwargs_can_raise :
  ¬ (∀ (unicode_capfirst : string → string) (self : column_info.t),
       ∃ kwargs : gmap string PyVal,
         column_info.field_kwargs unicode_capfirst self = inr kwargs
         ∧ is_Some (kwargs !! "label") ∧ is_Some (kwargs !! "help_text")
         ∧ is_Some (kwargs !! "required") ∧ is_Some (kwargs !! "validators")).
Proof.
  intros claim.
  destruct (claim id decorated_numeric_column) as (kwargs & E & _).
  vm_compute in E. discriminate E.
Qed.

(** C8, as the code has it.  In a bundle that [field_kwargs] returns,
    [enum_class] and [choices] never occur together.  A type whose
    [enum_class] attribute is not [None] gives [enum_class] and no
    [choices]; a type whose [enum_class] attribute is [None] gives no
    [enum_class], and [choices] exactly when it exposes [enums]; a type that
    does not expose [enum_class] at all gives neither key, also when it
    exposes [enums]. *)
Theorem field_kwargs_enum_class_or_choices (unicode_capfirst : string → string)
    (self : column_info.t) (kwargs : gmap string PyVal) :
  column_info.field_kwargs unicode_capfirst self = inr kwargs →
  match ColumnType.enum_class (Column.type (column_info.column self)) with
  | Some v =>
      if is_none v then
        kwargs !! "enum_class" = None
        ∧ kwargs !! "choices"
            = ColumnType.enums (Column.type (column_info.column self))
      else
        kwargs !! "enum_class" = Some v ∧ kwargs !! "choices" = None
  | None =>
      kwargs !! "enum_class" = None ∧ kwargs !! "choices" = None
  end.
Proof.
  intros (info & nullable & kw1 & kw2 & kw3 & _ & _ & E1 & E2 & E3 & ->)
    %field_kwargs_inv.
  rewrite !lookup_insert_ne by done.
  rewrite !(length_block_frame _ _ _ _ E3), !(decimal_block_frame _ _ _ _ E2)
    by done.
  rewrite enum_block_result in E1. injection E1 as <-.
  destruct (ColumnType.enum_class _) as [v|]; [|by simplify_map_eq].
  destruct (is_none v); [|by simplify_map_eq].
  destruct (ColumnType.enums _); by simplify_map_eq.
Qed.

(** C8 as stated fails: "otherwise, if the type exposes a raw list of
    enumerated values, the bundle contains [choices]" does not hold for a
    type that exposes [enums] without an [enum_class] attribute; the first
    block is left at the read of [enum_class]. *)
Lemma field_kwargs_choices_needs_enum_class :
  ¬ (∀ (unicode_capfirst : string → string) (self : column_info.t)
       (e : PyVal) (kwargs : gmap string PyVal),
       let ty := Column.type (column_info.column self) in
       ¬ (∃ v, ColumnType.enum_class ty = Some v ∧ is_none v = false) →
       ColumnType.enums ty = Some e →
       column_info.field_kwargs unicode_capfirst self = inr kwargs →
       kwargs !! "choices" = Some e ∧ kwargs !! "enum_class" = None).
Proof.
  intros claim.
  destruct (column_info.field_kwargs id enums_only_column) as [e|kwargs] eqn:E;
    [by vm_compute in E|].
  destruct (claim id enums_only_column (VList ["new"; "paid"]) kwargs)
    as [C _].
  - intros (v & ? & _). discriminate.
  - reflexivity.
  - exact E.
  - vm_compute in E. injection E as <-. vm_compute in C. discriminate.
Qed.

(** [field_kwargs_base_keys] and [field_kwargs_enum_class_or_choices] on
    sample columns. *)
Lemma field_kwargs_base_keys_witness :
  ∃ kwargs : gmap string PyVal,
    column_info.field_kwargs id price_column = inr kwargs
    ∧ kwargs !! "label" = Some (VStr "Unit price")
    ∧ kwargs !! "required" = Some (VBool true).
Proof.
  destruct (field_kwargs_base_keys id price_column ∅ false eq_refl eq_refl)
    as (kwargs & E & L & _ & R & _).
  - intros p s e _ _ [=].
  - exists kwargs. split_and!; [exact E|exact L|exact R].
Defined.

Lemma field_kwargs_enum_class_or_choices_witness :
  ∃ kwargs : gmap string PyVal,
    column_info.field_kwargs id enums_only_column = inr kwargs
    ∧ kwargs !! "enum_class" = None ∧ kwargs !! "choices" = None.
Proof.
  destruct (column_info.field_kwargs id enums_only_column) as [e|kwargs] eqn:E;
    [by vm_compute in E|].
  exists kwargs. split; [done|].
  exact (field_kwargs_enum_class_or_choices id enums_only_column kwargs E).
Defined.

(** ** [composite_info.field_names] *)

Section composite_info_facts.
Import composite_info.

Lemma composite_properties_keys (l : list (string * (ColumnProperty.t * Column.t)))
    (d : odict.t column_info.t) (x : string) :
  x ∈ odict.keys
        (foldl (λ d '(attr, (prop, col)),
                  odict.set attr (column_info.__init__ prop col) d) d l)
  ↔ x ∈ odict.keys d ∨ x ∈ l.*1.
Proof.
  revert d. induction l as [|[attr [p c]] l IH]; intros d; simpl.
  - rewrite elem_of_nil. tauto.
  - rewrite IH, odict_keys_set, elem_of_cons. tauto.
Qed.

Lemma zip_two_fst {A B C} (l : list A) (k1 : list B) (k2 : list C) :
  List.length k1 = 2 → List.length k2 = 2 →
  (zip l (zip k1 k2)).*1 = take 2 l.
Proof.
  destruct k1 as [|? [|? [|]]]; try done.
  destruct k2 as [|? [|? [|]]]; try done.
  intros _ _. by destruct l as [|? [|? [|? ?]]].
Qed.

Lemma length_remove_dups {A} `{EqDecision A} (l : list A) :
  (List.length (remove_dups l) ≤ List.length l)%nat.
Proof.
  induction l as [|x l IH]; simpl; [done|].
  destruct (decide_rel _ x l); simpl; lia.
Qed.

Variable set_iter : gset string → list string.
Hypothesis set_iter_elements : ∀ s, set_iter s ≡ₚ elements s.

(** The first read of [field_names] after construction. *)
Lemma field_names_first_read (composite : CompositeProperty.t) :
  let self := __init__ composite in
  let names :=
    filter (λ attr, negb (startswith_underscore attr))
      (set_iter (∅ ∪ list_to_set (odict.keys (properties self)))) in
  field_names set_iter self
  = (inr (FNList names), set_field_names (FNList names) self).
Proof. reflexivity. Qed.

(** A later read returns the list left by the first one, when that list
    is not empty. *)
Lemma field_names_cached (self : composite_info.t) (a : string)
    (names : list string) :
  _field_names self = FNList (a :: names) →
  field_names set_iter self = (inr (FNList (a :: names)), self).
Proof.
  intros H. unfold field_names. py_unfold. rewrite H. simpl.
  by rewrite H.
Qed.

(** C2, as the code has it.  For a composite backed by two columns the
    first read of [field_names] returns, each once, exactly those of the
    (at most two) attribute names paired with the two sub-properties that do
    not start with an underscore: at most two names, and two when two
    distinct attribute names are found and neither starts with an
    underscore.  The names come out in the iteration order of the set they
    were collected in. *)
Theorem composite_field_names_two_columns (composite : CompositeProperty.t) :
  List.length (CompositeProperty.props composite) = 2 →
  List.length (CompositeProperty.columns composite) = 2 →
  ∃ names : list string,
    (field_names set_iter (__init__ composite)).1 = inr (FNList names)
    ∧ names ≡ₚ filter (λ attr, negb (startswith_underscore attr))
                 (remove_dups
                    (take 2 (attrs (CompositeProperty.composite_class composite))))
    ∧ (List.length names ≤ 2)%nat
    ∧ (∀ a b rest,
         attrs (CompositeProperty.composite_class composite) = a :: b :: rest →
         a ≠ b →
         startswith_underscore a = false → startswith_underscore b = false →
         names ≡ₚ [a; b]).
Proof.
  intros Hp Hc. eexists. rewrite field_names_first_read. cbn zeta.
  split; [reflexivity|].
  set (cls := CompositeProperty.composite_class composite).
  match goal with |- ?l ≡ₚ _ ∧ _ => set (names := l) end.
  assert (HP : names ≡ₚ filter (λ attr, negb (startswith_underscore attr))
                 (remove_dups (take 2 (attrs cls)))).
  { subst names. apply filter_Permutation. rewrite set_iter_elements.
    apply NoDup_Permutation; [apply NoDup_elements|apply NoDup_remove_dups|].
    intros x. rewrite elem_of_elements, elem_of_remove_dups.
    rewrite elem_of_union, elem_of_list_to_set. unfold __init__; simpl.
    rewrite composite_properties_keys, zip_two_fst by done.
    unfold odict.keys, odict.empty. simpl. rewrite elem_of_nil.
    rewrite elem_of_empty. tauto. }
  split; [done|]. split.
  - rewrite HP. etrans; [apply length_filter|].
    etrans; [apply length_remove_dups|]. rewrite length_take. lia.
  - intros a b rest Ha Hab Hsa Hsb. rewrite HP, Ha.
    change (take 2 (a :: b :: rest)) with [a; b]. simpl.
    destruct (decide_rel elem_of a [b]) as [Hin|_];
      [by apply list_elem_of_singleton in Hin|].
    destruct (decide_rel elem_of b []) as [Hin|_];
      [by apply elem_of_nil in Hin|].
    rewrite !filter_cons, filter_nil. by rewrite Hsa, Hsb.
Qed.
End composite_info_facts.


(** [composite_field_names_two_columns] on [point_composite]. *)
Lemma composite_field_names_two_columns_witness :
  ∃ names : list string,
    (composite_info.field_names elements
       (composite_info.__init__ point_composite)).1 = inr (FNList names)
    ∧ names ≡ₚ ["x"; "y"].
Proof.
  destruct (composite_field_names_two_columns elements
              (λ s, reflexivity (elements s)) point_composite eq_refl eq_refl)
    as (names & E & _ & _ & H).
  exists names. split; [exact E|]. by apply (H "x" "y" []).
Defined.

(** C2 as stated fails: [private_point_composite] is backed by two columns
    and has a single field name, its attribute [_x] being filtered out. *)
Lemma composite_field_names_not_always_two :
  ¬ (∀ (set_iter : gset string → list string) (composite : CompositeProperty.t),
       (∀ s, set_iter s ≡ₚ elements s) →
       List.length (CompositeProperty.props composite) = 2 →
       List.length (CompositeProperty.columns composite) = 2 →
       ∃ names : list string,
         (composite_info.field_names set_iter
            (composite_info.__init__ composite)).1 = inr (FNList names)
         ∧ List.length names = 2
         ∧ names
           = odict.keys
               (composite_info.properties (composite_info.__init__ composite))).
Proof.
  intros claim.
  destruct (claim elements private_point_composite) as (names & E & L & _);
    [done..|].
  vm_compute in E. injection E as <-. discriminate L.
Qed.

(** ** [relation_info.local_remote_pairs_for_identity_key] *)

Section relation_info_facts.
Import relation_info.

(** The dictionary comprehensions: a key is bound when some pair carries
    it, and then to the value of the last such pair. *)
Lemma reverse_map_acc_lookup (pairs : list (string * string))
    (m : gmap string string) (r l : string) :
  foldl (λ m '(k, v), <[v := k]> m) m pairs !! r = Some l →
  (l, r) ∈ pairs ∨ m !! r = Some l.
Proof.
  revert m. induction pairs as [|[k v] pairs IH]; intros m; simpl; [auto|].
  intros [H|H]%IH; [left; by right|].
  destruct (decide (v = r)) as [->|]; simplify_map_eq; [left; by left|by right].
Qed.

Lemma reverse_map_acc_is_Some (pairs : list (string * string))
    (m : gmap string string) (r : string) :
  is_Some (foldl (λ m '(k, v), <[v := k]> m) m pairs !! r)
  ↔ r ∈ pairs.*2 ∨ is_Some (m !! r).
Proof.
  revert m. induction pairs as [|[k v] pairs IH]; intros m; simpl.
  - rewrite elem_of_nil. tauto.
  - rewrite IH, lookup_insert_is_Some, elem_of_cons.
    destruct (decide (v = r)); intuition congruence.
Qed.

Lemma reverse_map_lookup (pairs : list (string * string)) (r l : string) :
  reverse_map pairs !! r = Some l → (l, r) ∈ pairs.
Proof.
  intros [H|H]%reverse_map_acc_lookup; [done|]. by rewrite lookup_empty in H.
Qed.

Lemma reverse_map_is_Some (pairs : list (string * string)) (r : string) :
  is_Some (reverse_map pairs !! r) ↔ r ∈ pairs.*2.
Proof.
  unfold reverse_map. rewrite reverse_map_acc_is_Some, lookup_empty.
  split; [intros [?|[? [=]]]; done|auto].
Qed.

Lemma reverse_map_acc_NoDup (pairs : list (string * string))
    (m : gmap string string) (r l : string) :
  NoDup pairs.*2 → (l, r) ∈ pairs →
  foldl (λ m '(k, v), <[v := k]> m) m pairs !! r = Some l.
Proof.
  revert m. induction pairs as [|[k v] pairs IH]; intros m; simpl.
  - by intros _ ?%elem_of_nil.
  - intros [Hv ND]%NoDup_cons [[= -> ->]|Hin]%elem_of_cons; [|by apply IH].
    destruct (foldl _ _ pairs !! v) as [l'|] eqn:E.
    + apply reverse_map_acc_lookup in E as [E|E].
      * destruct Hv. apply list_elem_of_fmap. by exists (l', v).
      * by simplify_map_eq.
    + assert (is_Some (foldl (λ m '(k, v), <[v := k]> m) (<[v:=k]> m) pairs !! v))
        as [? ?]; [|congruence].
      apply reverse_map_acc_is_Some. right. by simplify_map_eq.
Qed.

Lemma elem_of_foreign_key_constraints (constraints : list Constraint)
    (c : ForeignKeyConstraint.t) :
  c ∈ foreign_key_constraints constraints
  ↔ AForeignKeyConstraint c ∈ constraints.
Proof.
  unfold foreign_key_constraints. rewrite list_elem_of_omap. split.
  - intros ([k|?] & Hin & [= <-]). done.
  - intros Hin. by exists (AForeignKeyConstraint c).
Qed.

(** The list comprehension [[(pairs[i], i) for i in target_pk]]. *)
Lemma ordered_pairs_Some (pairs : gmap string string)
    (pk : list string) (res : list (string * string)) :
  ordered_pairs pairs pk = Some res
  ↔ Forall2 (λ i p, pairs !! i = Some p.1 ∧ p.2 = i) pk res.
Proof.
  unfold ordered_pairs. rewrite mapM_Some.
  split; intros H; eapply Forall2_impl; [exact H| |exact H|];
    intros i [l r]; simpl.
  - destruct (pairs !! i); intros [=]; by subst.
  - by intros [-> ->].
Qed.

Lemma ordered_pairs_is_Some (pairs : gmap string string) (pk : list string) :
  is_Some (ordered_pairs pairs pk) ↔ Forall (λ i, is_Some (pairs !! i)) pk.
Proof.
  unfold ordered_pairs. rewrite mapM_is_Some. apply Forall_proper; [|done].
  intros i. simpl. by rewrite fmap_is_Some.
Qed.

Lemma ordered_pairs_snd (pairs : gmap string string)
    (pk : list string) (res : list (string * string)) :
  ordered_pairs pairs pk = Some res → res.*2 = pk.
Proof.
  rewrite ordered_pairs_Some. induction 1 as [|i p pk res [_ ?]]; simpl;
    [done|]. by f_equal.
Qed.

Lemma ordered_pairs_fmap (pairs : gmap string string)
    (pk : list string) (res : list (string * string)) :
  ordered_pairs pairs pk = Some res →
  res = (λ i, (default i (pairs !! i), i)) <$> pk.
Proof.
  rewrite ordered_pairs_Some. induction 1 as [|i [l r] pk res [E ?]]; simpl;
    [done|]. simpl in *. rewrite E. simpl. by f_equal; [f_equal|].
Qed.

Lemma direct_path_fails (self : relation_info.t) :
  Exists (λ i, reverse_map (local_remote_pairs self) !! i = None) (target_pk self) →
  ordered_pairs (reverse_map (local_remote_pairs self)) (target_pk self) = None.
Proof.
  intros H. unfold ordered_pairs. apply mapM_None.
  eapply Exists_impl; [exact H|]. intros i ->. done.
Qed.

Lemma ordered_pairs_lookup (pairs : gmap string string)
    (pk : list string) (res : list (string * string)) :
  ordered_pairs pairs pk = Some res →
  Forall (λ p, pairs !! p.2 = Some p.1) res.
Proof.
  rewrite ordered_pairs_Some.
  induction 1 as [|i p pk' res' [E1 <-]]; constructor; done.
Qed.

(** The reads of the referenced columns of a constraint: they all return,
    or the first that raises ends them. *)
Lemma referenced_columns_inr (es : list ForeignKey.t) (columns : list string) :
  referenced_columns es = inr columns
  ↔ ForeignKey.column <$> es = inr <$> columns.
Proof.
  revert columns. induction es as [|j es IH]; intros columns; simpl.
  - split; [by intros [= <-]|]. by destruct columns.
  - destruct (ForeignKey.column j) as [e|c] eqn:Ej.
    { split; [done|]. by destruct columns. }
    destruct (referenced_columns es) as [e|cs] eqn:Ees.
    + split; [done|]. destruct columns as [|c' columns]; [done|].
      intros [= _ H]. by apply IH in H.
    + split.
      * intros [= <-]. simpl. f_equal. by apply IH.
      * destruct columns as [|c' columns]; [done|].
        intros [= -> H]. apply IH in H. by injection H as ->.
Qed.

Lemma referenced_columns_inl (es : list ForeignKey.t) (e : PyExn) :
  referenced_columns es = inl e →
  ∃ j, j ∈ es ∧ ForeignKey.column j = inl e.
Proof.
  induction es as [|j es IH]; simpl; [done|].
  destruct (ForeignKey.column j) as [e'|c] eqn:Ej.
  - intros [= <-]. exists j. split; [by left|done].
  - destruct (referenced_columns es) as [e'|cs]; [|done].
    intros [= <-]. destruct (IH eq_refl) as (j' & ? & ?).
    exists j'. split; [by right|done].
Qed.

(** The pairs a constraint declares, once its referenced columns are
    read. *)
Lemma elem_of_zip_referenced (es : list ForeignKey.t) (columns : list string)
    (l r : string) :
  referenced_columns es = inr columns →
  (l, r) ∈ zip (ForeignKey.parent <$> es) columns
  ↔ ∃ j, j ∈ es ∧ ForeignKey.parent j = l ∧ ForeignKey.column j = inr r.
Proof.
  rewrite referenced_columns_inr. revert columns.
  induction es as [|j es IH]; intros [|c columns]; simpl; try done.
  - intros _. rewrite elem_of_nil. split; [done|]. by intros (? & ?%elem_of_nil & _).
  - intros [= Ej H]. rewrite elem_of_cons, (IH _ H). split.
    + intros [[= -> ->]|(j' & ? & ? & ?)].
      * exists j. split; [by left|done].
      * exists j'. split; [by right|done].
    + intros (j' & [->|?]%elem_of_cons & <- & Hc).
      * left. rewrite Ej in Hc. by injection Hc as ->.
      * right. by exists j'.
Qed.

Lemma zip_referenced_snd (es : list ForeignKey.t) (columns : list string) :
  referenced_columns es = inr columns →
  (zip (ForeignKey.parent <$> es) columns).*2 = columns.
Proof.
  intros H%referenced_columns_inr. apply snd_zip.
  rewrite length_fmap. apply (f_equal List.length) in H.
  rewrite !length_fmap in H. lia.
Qed.

(** The dictionary built from a constraint is the reverse map of the pairs
    it declares; building it raises exactly when a read of a referenced
    column does. *)
Lemma constraint_map_reverse (es : list ForeignKey.t) (columns : list string) :
  referenced_columns es = inr columns →
  constraint_map es
  = inr (reverse_map (zip (ForeignKey.parent <$> es) columns)).
Proof.
  unfold constraint_map, reverse_map. generalize (∅ : gmap string string).
  revert columns. induction es as [|j es IH]; intros columns m; simpl.
  - by intros [= <-].
  - destruct (ForeignKey.column j) as [e|c]; [done|].
    destruct (referenced_columns es) as [e|cs] eqn:Ees; [done|].
    intros [= <-]. simpl. by apply IH.
Qed.

(** A comprehension whose condition can raise: it returns when every
    condition does, and then it is the filter. *)
Lemma select_inr {A} (cond : A → PyExn + bool) (l r : list A) :
  select cond l = inr r
  ↔ Forall (λ i, ∃ b, cond i = inr b) l
    ∧ r = filter (λ i, cond i = inr true) l.
Proof.
  revert r. induction l as [|i l IH]; intros r; simpl.
  - split; [by intros [= <-]|by intros [_ ->]].
  - rewrite Forall_cons, filter_cons.
    destruct (cond i) as [e|b] eqn:Ei.
    { split; [done|]. by intros [[[b [=]] _] _]. }
    destruct (select cond l) as [e|r'] eqn:El.
    + split; [done|]. intros [[_ Hl] _].
      assert (inl e = inr (filter (λ i, cond i = inr true) l)) as [=].
      { by apply IH. }
    + destruct (IH r') as [[Hl ->] _]; [done|].
      destruct b.
      * rewrite decide_True by done. split; [intros [= <-]; eauto|by intros [_ ->]].
      * rewrite decide_False by done. split; [intros [= <-]; eauto|by intros [_ ->]].
Qed.

Lemma select_inl {A} (cond : A → PyExn + bool) (l : list A) (e : PyExn) :
  select cond l = inl e → ∃ i, i ∈ l ∧ cond i = inl e.
Proof.
  induction l as [|i l IH]; simpl; [done|].
  destruct (cond i) as [e'|b] eqn:Ei.
  - intros [= <-]. exists i. split; [by left|done].
  - destruct (select cond l) as [e'|r]; [|done].
    intros [= <-]. destruct (IH eq_refl) as (i' & ? & ?).
    exists i'. split; [by right|done].
Qed.

Lemma select_Permutation {A} (cond : A → PyExn + bool) (l l' : list A) :
  l ≡ₚ l' →
  match select cond l, select cond l' with
  | inr r, inr r' => r ≡ₚ r'
  | inl _, inl _ => True
  | _, _ => False
  end.
Proof.
  intros HP.
  destruct (select cond l) as [e|r] eqn:E, (select cond l') as [e'|r'] eqn:E';
    [done|..].
  - apply select_inr in E' as [Hl' _]. rewrite <-HP in Hl'.
    assert (select cond l = inr (filter (λ i, cond i = inr true) l)) as E2
      by (by apply select_inr).
    congruence.
  - apply select_inr in E as [Hl _]. rewrite HP in Hl.
    assert (select cond l' = inr (filter (λ i, cond i = inr true) l')) as E2
      by (by apply select_inr).
    congruence.
  - apply select_inr in E as [_ ->]. apply select_inr in E' as [_ ->].
    by rewrite HP.
Qed.

(** The condition of the comprehension is an inclusion test on both
    sides; the referenced columns are read, and the reads can raise, only
    when the first test holds. *)
Lemma matches_true (parent_columns target_columns : gset string)
    (c : ForeignKeyConstraint.t) :
  matches parent_columns target_columns c = inr true
  ↔ parent_columns ⊆ list_to_set (ForeignKey.parent <$> ForeignKeyConstraint.elements c)
    ∧ ∃ columns,
        ForeignKey.column <$> ForeignKeyConstraint.elements c = inr <$> columns
        ∧ target_columns ⊆ list_to_set columns.
Proof.
  unfold matches. rewrite (subseteq_intersection_L parent_columns).
  case_bool_decide as Hp; [|split; [done|by intros [? _]]].
  destruct (referenced_columns _) as [e|cs] eqn:E.
  - split; [done|]. intros (_ & columns & H%referenced_columns_inr & _).
    congruence.
  - split.
    + intros [= Ht%bool_decide_eq_true]. split; [done|]. exists cs.
      split; [by apply referenced_columns_inr|].
      by apply subseteq_intersection_L.
    + intros (_ & columns & H%referenced_columns_inr & Ht).
      rewrite E in H. injection H as <-. f_equal.
      by apply bool_decide_eq_true, subseteq_intersection_L.
Qed.

Lemma matches_raises (parent_columns target_columns : gset string)
    (c : ForeignKeyConstraint.t) (e : PyExn) :
  matches parent_columns target_columns c = inl e →
  parent_columns ⊆ list_to_set (ForeignKey.parent <$> ForeignKeyConstraint.elements c)
  ∧ ∃ j, j ∈ ForeignKeyConstraint.elements c ∧ ForeignKey.column j = inl e.
Proof.
  unfold matches. rewrite (subseteq_intersection_L parent_columns).
  case_bool_decide as Hp; [|done].
  destruct (referenced_columns _) as [e'|cs] eqn:E; [|done].
  intros [= <-]. split; [done|]. by apply referenced_columns_inl.
Qed.

(** A selected constraint binds every target primary-key column, so that
    neither the dictionary built from it nor the lookups in it raise. *)
Lemma selected_constraint_pairs (self : relation_info.t)
    (selected : list ForeignKeyConstraint.t) (c : ForeignKeyConstraint.t) :
  matching_constraints self = inr selected →
  c ∈ selected →
  ∃ (pairs : gmap string string) (res : list (string * string)),
    constraint_map (ForeignKeyConstraint.elements c) = inr pairs
    ∧ ordered_pairs pairs (target_pk self) = Some res
    ∧ Forall (λ p, ∃ j, j ∈ ForeignKeyConstraint.elements c
                        ∧ ForeignKey.parent j = p.1
                        ∧ ForeignKey.column j = inr p.2) res.
Proof.
  unfold matching_constraints.
  intros [_ ->]%select_inr [Hm _]%list_elem_of_filter.
  apply matches_true in Hm as (_ & columns & Hc%referenced_columns_inr & Ht).
  rewrite (constraint_map_reverse _ _ Hc).
  assert (is_Some (ordered_pairs
                     (reverse_map
                        (zip (ForeignKey.parent <$> ForeignKeyConstraint.elements c)
                           columns)) (target_pk self))) as [res E].
  { apply ordered_pairs_is_Some, Forall_forall. intros i Hi.
    apply reverse_map_is_Some. rewrite (zip_referenced_snd _ _ Hc).
    assert (i ∈ target_columns self) as Hi'%Ht
      by (by apply elem_of_list_to_set).
    by apply elem_of_list_to_set in Hi'. }
  eexists _, res. split; [done|]. split; [done|].
  eapply Forall_impl; [by eapply ordered_pairs_lookup|].
  intros [l r] E1. simpl in *.
  by apply reverse_map_lookup, (elem_of_zip_referenced _ _ _ _ Hc) in E1.
Qed.

(** C3. Direct path.  When the reverse map (remote column to local column,
    built from the raw local-remote pairs) binds every column of the target
    primary key, the result is one pair per target primary-key column, in the
    declared order of those columns, each of them one of the relationship's
    own (local, remote) pairs; when the pairs have distinct remote columns
    that are exactly the target primary key, the result is a reordering of
    the raw pairs.  In particular a single-column primary key [pk] with the
    single pair [(local, pk)] gives exactly [[(local, pk)]]. *)
Theorem identity_key_direct_path (self : relation_info.t) :
  Forall (λ i, is_Some (reverse_map (local_remote_pairs self) !! i))
    (target_pk self) →
  ∃ res : list (string * string),
    local_remote_pairs_for_identity_key self = inr res
    ∧ res.*2 = target_pk self
    ∧ Forall (λ p, p ∈ local_remote_pairs self) res
    ∧ (NoDup (local_remote_pairs self).*2 →
       (local_remote_pairs self).*2 ≡ₚ target_pk self →
       res ≡ₚ local_remote_pairs self)
    ∧ (∀ local pk, target_pk self = [pk] →
         local_remote_pairs self = [(local, pk)] → res = [(local, pk)]).
Proof.
  intros [res E]%ordered_pairs_is_Some.
  exists res. unfold local_remote_pairs_for_identity_key. rewrite E.
  split; [done|]. split; [by eapply ordered_pairs_snd|]. split_and!.
  - eapply Forall_impl; [by eapply ordered_pairs_lookup|].
    intros [l r]. apply reverse_map_lookup.
  - intros ND HP. apply ordered_pairs_fmap in E. subst res.
    rewrite <-HP.
    set (g := λ i, (default i (reverse_map (local_remote_pairs self) !! i), i)).
    assert (g <$> (local_remote_pairs self).*2 = local_remote_pairs self) as Hg.
    { rewrite <-list_fmap_compose.
      rewrite <-(list_fmap_id (local_remote_pairs self)) at 2.
      apply Forall_fmap_ext_1, Forall_forall.
      intros [l r] Hin. unfold g. simpl.
      unfold reverse_map. by rewrite (reverse_map_acc_NoDup _ ∅ r l ND Hin). }
    by rewrite Hg.
  - intros local pk Hpk Hlr. rewrite Hpk, Hlr in E.
    unfold ordered_pairs, reverse_map in E. simpl in E.
    rewrite lookup_insert_eq in E. by inversion E.
Qed.


(** C9, as the code has it.  When the direct path does not cover the
    target primary key and the selection returns, leaving no constraint or
    more than one, the raw local-remote pairs are returned unchanged and
    nothing is raised. *)
Theorem identity_key_fallback_raw_pairs (self : relation_info.t)
    (selected : list ForeignKeyConstraint.t) :
  Exists (λ i, reverse_map (local_remote_pairs self) !! i = None)
    (target_pk self) →
  matching_constraints self = inr selected →
  List.length selected ≠ 1 →
  local_remote_pairs_for_identity_key self = inr (local_remote_pairs self).
Proof.
  intros Hdirect Hsel Hlen. unfold local_remote_pairs_for_identity_key.
  rewrite (direct_path_fails _ Hdirect), Hsel. by rewrite bool_decide_eq_false_2.
Qed.

(** C1, as the code has it.  When the selection returns, a constraint of
    the owning table is selected if and only if it is a foreign-key
    constraint whose referencing columns include every locally known column
    of the reverse map and whose referenced columns, which are then all
    resolved, include every target primary-key column.  When the selection
    raises, the exception is that of the read of a referenced column of a
    foreign-key constraint whose referencing columns include the locally
    known columns. *)
Theorem matching_constraints_by_inclusion (self : relation_info.t) :
  match matching_constraints self with
  | inr selected =>
      ∀ c, c ∈ selected
           ↔ AForeignKeyConstraint c ∈ Table.constraints (parent_table self)
             ∧ parent_columns self
               ⊆ list_to_set (ForeignKey.parent <$> ForeignKeyConstraint.elements c)
             ∧ ∃ columns,
                 ForeignKey.column <$> ForeignKeyConstraint.elements c
                 = inr <$> columns
                 ∧ target_columns self ⊆ list_to_set columns
  | inl e =>
      ∃ c j,
        AForeignKeyConstraint c ∈ Table.constraints (parent_table self)
        ∧ parent_columns self
          ⊆ list_to_set (ForeignKey.parent <$> ForeignKeyConstraint.elements c)
        ∧ j ∈ ForeignKeyConstraint.elements c
        ∧ ForeignKey.column j = inl e
  end.
Proof.
  unfold matching_constraints.
  destruct (select _ _) as [e|selected] eqn:E.
  - apply select_inl in E as (c & Hc%elem_of_foreign_key_constraints & Hm).
    apply matches_raises in Hm as (Hp & j & Hj & Ej). by exists c, j.
  - apply select_inr in E as [_ ->]. intros c.
    rewrite list_elem_of_filter, elem_of_foreign_key_constraints, matches_true.
    tauto.
Qed.

End relation_info_facts.

Section relation_info_examples.
Import relation_info.

(** [identity_key_direct_path] on [post_author]. *)
Lemma identity_key_direct_path_witness :
  local_remote_pairs_for_identity_key post_author
  = inr [("post.user_id", "user.id")].
Proof.
  destruct (identity_key_direct_path post_author) as (res & E & _ & _ & _ & H).
  - apply Forall_cons; split; [|by apply Forall_nil].
    vm_compute. by eexists.
  - rewrite E. f_equal. by apply H.
Defined.


(** [identity_key_fallback_raw_pairs] on [child_parent_ambiguous]. *)
Lemma identity_key_fallback_raw_pairs_witness :
  local_remote_pairs_for_identity_key child_parent_ambiguous
  = inr [("child.parent_id", "parent.id")].
Proof.
  apply (identity_key_fallback_raw_pairs child_parent_ambiguous
           (foreign_key_constraints (Table.constraints child_table_two_fks))).
  - apply Exists_cons_tl, Exists_cons_hd. by vm_compute.
  - by vm_compute.
  - by vm_compute.
Defined.

(** C9 as stated fails.  In [child_parent_dangling] the direct path does
    not cover the target primary key and no constraint of the owning table
    matches, its only foreign key referring to a table that is not declared;
    the selection reads the referenced column of that key, and the
    exception of the read is raised instead of the raw pairs being
    returned. *)
Lemma identity_key_fallback_can_raise :
  ¬ (∀ self : relation_info.t,
       Exists (λ i, reverse_map (local_remote_pairs self) !! i = None)
         (target_pk self) →
       List.length
         (filter (λ c, matches (parent_columns self) (target_columns self) c
                       = inr true)
            (foreign_key_constraints (Table.constraints (parent_table self))))
       ≠ 1 →
       local_remote_pairs_for_identity_key self
       = inr (local_remote_pairs self)).
Proof.
  intros claim. specialize (claim child_parent_dangling).
  assert (local_remote_pairs_for_identity_key child_parent_dangling
          = inl NoReferencedTableError) as E by (by vm_compute).
  rewrite E in claim. discriminate claim.
  - apply Exists_cons_tl, Exists_cons_hd. by vm_compute.
  - by vm_compute.
Qed.

(** C1 as stated fails: the foreign key of [child_table] is selected for
    [child_parent] although its referencing columns are a proper superset of
    the locally known columns. *)
Lemma matching_constraints_not_exact :
  ¬ (∀ (self : relation_info.t) (selected : list ForeignKeyConstraint.t)
       (c : ForeignKeyConstraint.t),
       matching_constraints self = inr selected →
       c ∈ selected
       ↔ AForeignKeyConstraint c ∈ Table.constraints (parent_table self)
         ∧ list_to_set (ForeignKey.parent <$> ForeignKeyConstraint.elements c) = parent_columns self
         ∧ ∃ columns,
             ForeignKey.column <$> ForeignKeyConstraint.elements c = inr <$> columns
             ∧ list_to_set columns = target_columns self).
Proof.
  intros claim.
  destruct (claim child_parent [child_fk] child_fk) as [H _]; [by vm_compute|].
  destruct H as (_ & H & _); [by left|].
  assert (Hin : "child.tenant" ∈ parent_columns child_parent).
  { rewrite <-H. set_solver. }
  revert Hin. by vm_compute.
Qed.

End relation_info_examples.

(** ** The heap *)

Section heap_facts.
Import model_info_object.
Implicit Types (w : World) (o : model_info_object.t) (self : nat).

Lemma model_at_put_model w self o : model_at (put_model self o w) self o.
Proof. unfold model_at, put_model. simpl. apply lookup_insert_eq. Qed.

Lemma put_model_same w self o : model_at w self o → put_model self o w = w.
Proof.
  unfold model_at, put_model, set_heap. intros H. destruct w as [r h].
  simpl in *. f_equal. by apply insert_id.
Qed.

Lemma put_model_twice w self o o' :
  put_model self o' (put_model self o w) = put_model self o' w.
Proof.
  unfold put_model, set_heap. simpl. f_equal. apply insert_insert_eq.
Qed.

Lemma load_model_at w self o : model_at w self o → load_model self w = (inr o, w).
Proof. unfold model_at, load_model. py_unfold. by intros ->. Qed.

Lemma update_model_at w self o (f : model_info_object.t → model_info_object.t) :
  model_at w self o → update_model self f w = (inr (), put_model self (f o) w).
Proof.
  intros H. unfold update_model. by rewrite (bind_inr _ _ _ _ _ (load_model_at _ _ _ H)).
Qed.

(** A loop whose body reads the instance and conditionally updates it. *)
Lemma for_guarded_update {A} self (guard : model_info_object.t → A → bool)
    (F : A → model_info_object.t → model_info_object.t) (l : list A) w o :
  model_at w self o →
  for_ l (λ x, me ← load_model self;
               if guard me x then update_model self (F x) else mret ()) w
  = (inr (),
     put_model self (foldl (λ o x, if guard o x then F x o else o) o l) w).
Proof.
  revert w o. induction l as [|x l IH]; intros w o H; simpl.
  - by rewrite put_model_same.
  - assert ((me ← load_model self;
             if guard me x then update_model self (F x) else mret ()) w
            = (inr (), put_model self (if guard o x then F x o else o) w))
      as Hbody.
    { rewrite (bind_inr _ _ _ _ _ (load_model_at _ _ _ H)).
      destruct (guard o x); [by apply update_model_at|].
      by rewrite put_model_same. }
    rewrite (bind_inr _ _ _ _ _ Hbody).
    rewrite (IH _ _ (model_at_put_model _ _ _)). by rewrite put_model_twice.
Qed.
End heap_facts.

(** ** The registry *)

Section registry_facts.
Implicit Types (w : World) (model : PyObject).

Lemma call_registered (super_call : PyObject → Py World nat) model w l :
  _registry w !! id_of (resolve model) = Some l →
  model_info_meta.__call__ super_call model w = (inr l, w).
Proof.
  intros H. unfold model_info_meta.__call__. py_unfold.
  rewrite bool_decide_eq_true_2 by (apply elem_of_dom; eauto).
  by rewrite H.
Qed.

Lemma call_unregistered (super_call : PyObject → Py World nat) model w w1 l :
  _registry w !! id_of (resolve model) = None →
  super_call (resolve model) w = (inr l, w1) →
  model_info_meta.__call__ super_call model w
  = (inr l, set_registry (insert (id_of (resolve model)) l) w1).
Proof.
  intros H Hc. unfold model_info_meta.__call__. py_unfold.
  rewrite bool_decide_eq_false_2 by (by apply not_elem_of_dom).
  rewrite Hc. simpl. by rewrite lookup_insert_eq.
Qed.

Lemma call_raises (super_call : PyObject → Py World nat) model w w1 e :
  _registry w !! id_of (resolve model) = None →
  super_call (resolve model) w = (inl e, w1) →
  model_info_meta.__call__ super_call model w = (inl e, w1).
Proof.
  intros H Hc. unfold model_info_meta.__call__. py_unfold.
  rewrite bool_decide_eq_false_2 by (by apply not_elem_of_dom).
  by rewrite Hc.
Qed.

(** Requesting the descriptor of a composite attribute never raises. *)
Lemma composite_info_call_attribute (owner : string)
    (composite : CompositeProperty.t) w :
  ∃ l w1,
    composite_info_call (OAttribute owner composite) w = (inr l, w1)
    ∧ ((_registry w !! KAttribute owner (CompositeProperty.key composite) = Some l
        ∧ w1 = w)
       ∨ (_registry w !! KAttribute owner (CompositeProperty.key composite) = None
          ∧ l = fresh (dom (heap w))
          ∧ w1 = set_registry
                   (insert (KAttribute owner (CompositeProperty.key composite)) l)
                   (set_heap
                      (insert l (IComposite (composite_info.__init__ composite)))
                      w))).
Proof.
  unfold composite_info_call.
  destruct (_registry w !! KAttribute owner (CompositeProperty.key composite))
    as [l|] eqn:E.
  - exists l, w. split; [by apply call_registered|by left].
  - eexists _, _. split; [|right; split_and!; reflexivity].
    by apply call_unregistered.
Qed.
End registry_facts.

(** ** [model_info._configure] *)

Section configure_facts.
Import model_info_object model_info.
Implicit Types (w : World) (o : model_info_object.t) (self : nat).

Lemma composite_info_call_model_at (owner : string)
    (composite : CompositeProperty.t) w self o :
  model_at w self o →
  ∃ l w1,
    composite_info_call (OAttribute owner composite) w = (inr l, w1)
    ∧ model_at w1 self o.
Proof.
  intros H.
  destruct (composite_info_call_attribute owner composite w)
    as (l & w1 & E & [[_ ->]|(_ & -> & ->)]); eexists _, _; (split; [exact E|]);
    [done|].
  unfold model_at in *. simpl. rewrite lookup_insert_ne; [done|].
  intros <-. apply (is_fresh (dom (heap w))). apply elem_of_dom. eauto.
Qed.

Lemma record_composite_at self (composite : CompositeProperty.t) w o :
  model_at w self o →
  if odict.contains (CompositeProperty.key composite) (composites o) then
    record_composite self composite w = (inr (), w)
  else
    ∃ c w1,
      record_composite self composite w
      = (inr (),
         put_model self
           (set_composites (odict.set (CompositeProperty.key composite) c) o) w1).
Proof.
  intros H. unfold record_composite.
  rewrite (bind_inr _ _ _ _ _ (load_model_at _ _ _ H)).
  destruct (odict.contains _ _); simpl; [done|].
  destruct (composite_info_call_model_at (model_class o) composite w self o H)
    as (c & w1 & E & H1).
  exists c, w1. rewrite (bind_inr _ _ _ _ _ E). by apply update_model_at.
Qed.

Lemma composites_loop self (comps : list CompositeProperty.t) w o :
  model_at w self o →
  ∃ w' d',
    for_ comps (record_composite self) w = (inr (), w')
    ∧ model_at w' self (set_composites (λ _, d') o)
    ∧ composites o `prefix_of` d'
    ∧ (∀ k, k ∈ odict.keys d'
            ↔ k ∈ odict.keys (composites o)
              ∨ k ∈ CompositeProperty.key <$> comps)
    ∧ (NoDup (odict.keys (composites o)) → NoDup (odict.keys d'))
    ∧ (Forall (λ c, CompositeProperty.key c ∈ odict.keys (composites o)) comps →
       w' = w).
Proof.
  revert w o. induction comps as [|c comps IH]; intros w o H; simpl.
  - exists w, (composites o). split_and!; try done.
    + by destruct o.
    + intros k. rewrite elem_of_nil. tauto.
  - pose proof (record_composite_at self c w o H) as Hc.
    destruct (odict.contains (CompositeProperty.key c) (composites o)) eqn:E.
    + apply odict_contains_true in E.
      destruct (IH w o H) as (w' & d' & Hfor & Hat & Hpre & Hkeys & Hnd & Hno).
      exists w', d'. rewrite (bind_inr _ _ _ _ _ Hc).
      split_and!; try done.
      * intros k. rewrite Hkeys, elem_of_cons. split; [tauto|].
        intros [?|[->|?]]; auto.
      * intros [_ ?]%Forall_cons. auto.
    + apply odict_contains_false in E. destruct Hc as (l & w1 & Hc).
      set (o1 := set_composites (odict.set (CompositeProperty.key c) l) o).
      destruct (IH _ o1 (model_at_put_model w1 self o1))
        as (w' & d' & Hfor & Hat & Hpre & Hkeys & Hnd & Hno).
      exists w', d'. rewrite (bind_inr _ _ _ _ _ Hc).
      assert (composites o1 = (composites o ++ [(CompositeProperty.key c, l)])%list)
        as Ho1 by (by apply odict_set_fresh).
      split_and!; try done.
      * etrans; [|exact Hpre]. rewrite Ho1. by apply prefix_app_r.
      * intros k. rewrite Hkeys, Ho1, elem_of_cons. unfold odict.keys.
        rewrite fmap_app, elem_of_app. simpl. rewrite list_elem_of_singleton.
        tauto.
      * intros ND. apply Hnd. rewrite Ho1. unfold odict.keys in *.
        rewrite fmap_app. simpl. apply NoDup_app.
        split_and!; [done| |apply NoDup_singleton].
        intros k Hk ->%list_elem_of_singleton. done.
      * intros [? _]%Forall_cons. done.
Qed.

Lemma primary_keys_loop self (m : Mapper.t) (l : list Column.t) w o :
  model_at w self o →
  for_ l (record_primary_key self m) w
  = (inr (),
     put_model self
       (set_primary_keys
          (λ d, foldl (add_absent (λ _, false) (column_key m)
                         (column_descriptor m)) d l) o) w).
Proof.
  intros H.
  etrans; [exact (for_guarded_update self
    (λ me col, negb (odict.contains (column_key m col) (primary_keys me)))
    (λ col, set_primary_keys
              (odict.set (column_key m col) (column_descriptor m col)))
    l w o H)|].
  do 2 f_equal. clear H. revert o.
  induction l as [|col l IH]; intros o; simpl; [by destruct o|].
  rewrite IH.
  destruct (odict.contains (column_key m col) (primary_keys o)) eqn:E;
    unfold set_primary_keys, add_absent; simpl; rewrite ?E; reflexivity.
Qed.

Lemma columns_loop self (m : Mapper.t) (l : list Column.t) w o :
  model_at w self o →
  for_ l (record_column self m) w
  = (inr (),
     put_model self
       (set_properties
          (λ d, foldl (add_absent
                         (λ col, odict.contains (column_key m col) (primary_keys o))
                         (column_key m) (column_descriptor m)) d l) o) w).
Proof.
  intros H.
  etrans; [exact (for_guarded_update self
    (λ me col, negb (odict.contains (column_key m col) (primary_keys me))
               && negb (odict.contains (column_key m col) (properties me)))
    (λ col, set_properties
              (odict.set (column_key m col) (column_descriptor m col)))
    l w o H)|].
  do 2 f_equal. clear H. revert o.
  induction l as [|col l IH]; intros o; simpl; [by destruct o|].
  rewrite IH.
  destruct (odict.contains (column_key m col) (primary_keys o)) eqn:E;
    destruct (odict.contains (column_key m col) (properties o)) eqn:E';
    unfold set_properties, add_absent; simpl; rewrite ?E, ?E'; reflexivity.
Qed.

Lemma relationships_loop self (l : list RelationshipProperty.t) w o :
  model_at w self o →
  for_ l (record_relationship self) w
  = (inr (),
     put_model self
       (set_relationships
          (λ d, foldl (add_absent (λ _, false) RelationshipProperty.key
                         relation_info.__init__) d l) o) w).
Proof.
  intros H.
  etrans; [exact (for_guarded_update self
    (λ me r, negb (odict.contains (RelationshipProperty.key r) (relationships me)))
    (λ r, set_relationships
            (odict.set (RelationshipProperty.key r) (relation_info.__init__ r)))
    l w o H)|].
  do 2 f_equal. clear H. revert o.
  induction l as [|r l IH]; intros o; simpl; [by destruct o|].
  rewrite IH.
  destruct (odict.contains (RelationshipProperty.key r) (relationships o)) eqn:E;
    unfold set_relationships, add_absent; simpl; rewrite ?E; reflexivity.
Qed.

(** What one run of [_configure] does to the instance: it returns, and
    each of the four maps is extended by the names that were not recorded. *)
Lemma configure_spec self (mapper_ : Mapper.t) (class_ : string) w o :
  model_at w self o →
  Mapper.ident mapper_ = Mapper.ident (mapper o) →
  class_ = model_class o →
  ∃ w' o',
    _configure self mapper_ class_ w = (inr (), w')
    ∧ model_at w' self o'
    ∧ mapper o' = mapper o
    ∧ model_class o' = model_class o
    ∧ primary_keys o'
      = foldl (add_absent (λ _, false) (column_key (mapper o))
                 (column_descriptor (mapper o)))
          (primary_keys o) (Mapper.primary_key (mapper o))
    ∧ properties o'
      = foldl (add_absent
                 (λ col, odict.contains (column_key (mapper o) col)
                           (primary_keys o'))
                 (column_key (mapper o)) (column_descriptor (mapper o)))
          (properties o) (Mapper.columns (mapper o))
    ∧ composites o `prefix_of` composites o'
    ∧ (∀ k, k ∈ odict.keys (composites o')
            ↔ k ∈ odict.keys (composites o)
              ∨ k ∈ CompositeProperty.key <$> Mapper.composites (mapper o))
    ∧ (NoDup (odict.keys (composites o)) → NoDup (odict.keys (composites o')))
    ∧ relationships o'
      = foldl (add_absent (λ _, false) RelationshipProperty.key
                 relation_info.__init__)
          (relationships o) (Mapper.relationships (mapper o)).
Proof.
  intros H Hid Hcls. unfold _configure.
  rewrite (bind_inr _ _ _ _ _ (load_model_at _ _ _ H)).
  rewrite !bool_decide_eq_true_2 by done.
  rewrite !(bind_inr _ _ w w () (assert_true w)).
  rewrite (bind_inr _ _ _ _ _ (primary_keys_loop _ _ _ _ _ H)).
  set (o1 := set_primary_keys _ o).
  rewrite (bind_inr _ _ _ _ _
             (columns_loop _ _ _ _ _ (model_at_put_model w self o1))).
  rewrite put_model_twice. set (o2 := set_properties _ o1).
  destruct (composites_loop self (Mapper.composites (mapper o)) _ o2
              (model_at_put_model w self o2))
    as (w3 & d' & Hfor & Hat & Hpre & Hkeys & Hnd & _).
  rewrite (bind_inr _ _ _ _ _ Hfor).
  rewrite (relationships_loop _ _ _ _ Hat).
  eexists _, _. split; [reflexivity|].
  split; [apply model_at_put_model|]. simpl. done.
Qed.

Lemma set_primary_keys_same (f : odict.t column_info.t → odict.t column_info.t) o :
  f (primary_keys o) = primary_keys o → set_primary_keys f o = o.
Proof. destruct o. unfold set_primary_keys. simpl. by intros ->. Qed.

Lemma set_properties_same (f : odict.t column_info.t → odict.t column_info.t) o :
  f (properties o) = properties o → set_properties f o = o.
Proof. destruct o. unfold set_properties. simpl. by intros ->. Qed.

Lemma set_relationships_same
    (f : odict.t relation_info.t → odict.t relation_info.t) o :
  f (relationships o) = relationships o → set_relationships f o = o.
Proof. destruct o. unfold set_relationships. simpl. by intros ->. Qed.

(** On an instance in which every name is recorded, [_configure] leaves
    the whole state as it is. *)
Lemma configure_recorded self (mapper_ : Mapper.t) (class_ : string) w o :
  model_at w self o →
  Mapper.ident mapper_ = Mapper.ident (mapper o) →
  class_ = model_class o →
  recorded o →
  _configure self mapper_ class_ w = (inr (), w).
Proof.
  intros H Hid Hcls (Hpk & Hcol & Hcomp & Hrel). unfold _configure.
  rewrite (bind_inr _ _ _ _ _ (load_model_at _ _ _ H)).
  rewrite !bool_decide_eq_true_2 by done.
  rewrite !(bind_inr _ _ w w () (assert_true w)).
  rewrite (bind_inr _ _ _ _ _ (primary_keys_loop _ _ _ _ _ H)).
  rewrite set_primary_keys_same, (put_model_same _ _ _ H); last first.
  { apply add_absent_recorded. eapply Forall_impl; [exact Hpk|]. auto. }
  rewrite (bind_inr _ _ _ _ _ (columns_loop _ _ _ _ _ H)).
  rewrite set_properties_same, (put_model_same _ _ _ H); last first.
  { apply add_absent_recorded. eapply Forall_impl; [exact Hcol|].
    intros col [?%odict_contains_true|?]; auto. }
  destruct (composites_loop self (Mapper.composites (mapper o)) w o H)
    as (w3 & d' & Hfor & _ & _ & _ & _ & Hno).
  rewrite (Hno Hcomp) in Hfor. rewrite (bind_inr _ _ _ _ _ Hfor).
  rewrite (relationships_loop _ _ _ _ H).
  rewrite set_relationships_same, (put_model_same _ _ _ H); [done|].
  apply add_absent_recorded. eapply Forall_impl; [exact Hrel|]. auto.
Qed.

(** After one run of [_configure] every name is recorded. *)
Lemma configure_records self (mapper_ : Mapper.t) (class_ : string) w o :
  model_at w self o →
  Mapper.ident mapper_ = Mapper.ident (mapper o) →
  class_ = model_class o →
  ∃ w' o',
    _configure self mapper_ class_ w = (inr (), w')
    ∧ model_at w' self o'
    ∧ mapper o' = mapper o ∧ model_class o' = model_class o
    ∧ recorded o'
    ∧ primary_keys o `prefix_of` primary_keys o'
    ∧ properties o `prefix_of` properties o'
    ∧ composites o `prefix_of` composites o'
    ∧ relationships o `prefix_of` relationships o'.
Proof.
  intros H Hid Hcls.
  destruct (configure_spec self mapper_ class_ w o H Hid Hcls)
    as (w' & o' & E & Hat & Hm & Hc & Hpk & Hprop & Hpre & Hkeys & _ & Hrel).
  exists w', o'. split_and!; try done.
  - unfold recorded. rewrite Hm. split_and!; apply Forall_forall.
    + intros col Hin. rewrite Hpk. apply add_absent_keys. right. by exists col.
    + intros col Hin.
      destruct (odict.contains (column_key (mapper o) col) (primary_keys o'))
        eqn:E'; [left; by apply odict_contains_true|].
      right. rewrite Hprop. apply add_absent_keys. right. by exists col.
    + intros c Hin. apply Hkeys. right. apply list_elem_of_fmap. by exists c.
    + intros r Hin. rewrite Hrel. apply add_absent_keys. right. by exists r.
  - rewrite Hpk. apply add_absent_prefix.
  - rewrite Hprop. apply add_absent_prefix.
  - rewrite Hrel. apply add_absent_prefix.
Qed.

(** C5. Idempotence.  On any instance, [_configure] called with the
    instance's own mapper and class returns without raising, and a second
    call then returns without raising and leaves the whole state, hence the
    primary-key, column, composite and relationship maps, exactly as the first
    call left it.  Each map after the call starts with the entries it had
    before it, in place and unchanged: entries are only added, under names
    that were not recorded. *)
Theorem configure_idempotent self (mapper_ : Mapper.t) (class_ : string) w o :
  heap w !! self = Some (IModel o) →
  Mapper.ident mapper_ = Mapper.ident (mapper o) →
  class_ = model_class o →
  ∃ w1 o1,
    _configure self mapper_ class_ w = (inr (), w1)
    ∧ heap w1 !! self = Some (IModel o1)
    ∧ _configure self mapper_ class_ w1 = (inr (), w1)
    ∧ primary_keys o `prefix_of` primary_keys o1
    ∧ properties o `prefix_of` properties o1
    ∧ composites o `prefix_of` composites o1
    ∧ relationships o `prefix_of` relationships o1.
Proof.
  intros H Hid Hcls.
  destruct (configure_records self mapper_ class_ w o H Hid Hcls)
    as (w1 & o1 & E & Hat & Hm & Hc & Hrec & Hpre).
  exists w1, o1. split_and!; try done; try apply Hpre.
  apply (configure_recorded self mapper_ class_ w1 o1); try done; congruence.
Qed.
End configure_facts.

Section construct_facts.
Import model_info_object model_info.
Variable sa_inspect : string → option Mapper.t.

Lemma construct_spec (c : string) (m : Mapper.t) (w : World) :
  sa_inspect c = Some m →
  ∃ w' o,
    let self := fresh (dom (heap w)) in
    construct sa_inspect (OClass c) w = (inr self, w')
    ∧ model_at w' self o
    ∧ _configure self m c (put_model self (blank m c) w) = (inr (), w').
Proof.
  intros Hm. unfold construct. rewrite Hm. cbn zeta.
  set (self := fresh (dom (heap w))).
  assert (alloc (IModel (blank m c)) w
          = (inr self, put_model self (blank m c) w)) as Ha by reflexivity.
  rewrite (bind_inr _ _ _ _ _ Ha).
  destruct (configure_records self m c _ (blank m c)
              (model_at_put_model w self (blank m c)) eq_refl eq_refl)
    as (w' & o & E & Hat & _).
  exists w', o. by rewrite (bind_inr _ _ _ _ _ E).
Qed.

End construct_facts.

Section evolution.
Import model_info_object model_info.

Global Instance evolves_preorder : PreOrder evolves.
Proof.
  split.
  - intros w. split; [intros []; auto|done].
  - intros w1 w2 w3 [R12 H12] [R23 H23]. split.
    + intros k. specialize (R12 k). specialize (R23 k).
      destruct k; [congruence|congruence|auto].
    + intros l. by rewrite H23.
Qed.

Lemma evolves_registry w w' : evolves w w' → _registry w ⊆ _registry w'.
Proof.
  intros [R _]. apply map_subseteq_spec. intros k l Hk. specialize (R k).
  destruct k; [congruence|congruence|auto].
Qed.

Lemma evolving_ret {A} (a : A) : evolving (mret a).
Proof. intros w. reflexivity. Qed.

Lemma evolving_raise {A} (e : PyExn) : evolving (raise e : Py World A).
Proof. intros w. reflexivity. Qed.

Lemma evolving_get_state : evolving get_state.
Proof. intros w. reflexivity. Qed.

Lemma evolving_bind {A B} (m : Py World A) (k : A → Py World B) :
  evolving m → (∀ a, evolving (k a)) → evolving (m ≫= k).
Proof.
  intros Hm Hk w. unfold mbind, Py_bind. specialize (Hm w).
  destruct (m w) as [[e|a] w1]; [done|]. etrans; [exact Hm|apply Hk].
Qed.

Lemma evolving_for {A} (l : list A) (body : A → Py World unit) :
  (∀ x, evolving (body x)) → evolving (for_ l body).
Proof.
  intros Hb. induction l as [|x l IH]; simpl; [apply evolving_ret|].
  apply evolving_bind; [apply Hb|]. by intros _.
Qed.

Lemma evolving_assert (b : bool) : evolving (assert b).
Proof. destruct b; [apply evolving_ret|apply evolving_raise]. Qed.

Lemma evolving_load_model self : evolving (load_model self).
Proof.
  unfold load_model. apply evolving_bind; [apply evolving_get_state|].
  intros w. destruct (heap w !! self) as [[o|o]|];
    first [apply evolving_ret|apply evolving_raise].
Qed.

Lemma evolving_update_model self (f : model_info_object.t → model_info_object.t) :
  (∀ o, model_class (f o) = model_class o) → evolving (update_model self f).
Proof.
  intros Hf w. unfold update_model, load_model. py_unfold.
  destruct (heap w !! self) as [[o|o]|] eqn:E; simpl; try reflexivity.
  split; [intros []; auto|]. intros l. unfold model_class_at. simpl.
  destruct (decide (self = l)) as [<-|];
    [rewrite lookup_insert_eq, E, Hf; done|by rewrite lookup_insert_ne].
Qed.

(** Allocating an instance that is not a [model_info]. *)
Lemma evolving_alloc_composite (o : composite_info.t) :
  evolving (alloc (IComposite o)).
Proof.
  intros w. split; [intros []; auto|]. intros l. unfold model_class_at. simpl.
  destruct (decide (fresh (dom (heap w)) = l)) as [<-|];
    [|by rewrite lookup_insert_ne].
  rewrite lookup_insert_eq.
  assert (heap w !! fresh (dom (heap w)) = None) as ->; [|done].
  apply not_elem_of_dom, is_fresh.
Qed.

Lemma evolving_composite_info_call (composite : PyObject) :
  evolving (composite_info_call composite).
Proof.
  intros w. unfold composite_info_call.
  destruct (_registry w !! id_of (resolve composite)) as [l|] eqn:E.
  - by rewrite (call_registered _ _ _ _ E).
  - destruct (composite_info_construct (resolve composite) w) as [[e|l] w1] eqn:Ec.
    + rewrite (call_raises _ _ _ _ _ E Ec).
      destruct (resolve composite); simpl in Ec; try (by injection Ec as _ <-).
      injection Ec as _ <-. apply evolving_alloc_composite.
    + rewrite (call_unregistered _ _ _ _ _ E Ec).
      destruct (resolve composite) as [?|?|owner prop] eqn:Er; simpl in Ec;
        try discriminate.
      pose proof (evolving_alloc_composite (composite_info.__init__ prop) w)
        as [R H].
      unfold alloc in *. simpl in *. injection Ec as <- <-.
      split; [|exact H]. intros k. specialize (R k). simpl.
      destruct k as [?|?|owner' key']; try (by rewrite lookup_insert_ne).
      intros l Hl.
      destruct (decide (KAttribute owner (CompositeProperty.key prop)
                        = KAttribute owner' key')) as [Heq|];
        [rewrite <-Heq in Hl; congruence|].
      rewrite lookup_insert_ne by done. auto.
Qed.

Lemma evolving_configure self (mapper_ : Mapper.t) (class_ : string) :
  evolving (_configure self mapper_ class_).
Proof.
  unfold _configure.
  apply evolving_bind; [apply evolving_load_model|]. intros me.
  repeat (apply evolving_bind; [apply evolving_assert|]; intros _).
  repeat (apply evolving_bind; [apply evolving_for; intros x|intros _]);
    [..|apply evolving_for; intros x].
  - unfold record_primary_key.
    apply evolving_bind; [apply evolving_load_model|]. intros o.
    destruct (negb _); [by apply evolving_update_model|apply evolving_ret].
  - unfold record_column.
    apply evolving_bind; [apply evolving_load_model|]. intros o.
    destruct (_ && _); [by apply evolving_update_model|apply evolving_ret].
  - unfold record_composite.
    apply evolving_bind; [apply evolving_load_model|]. intros o.
    destruct (negb _); [|apply evolving_ret].
    apply evolving_bind; [apply evolving_composite_info_call|]. intros c.
    by apply evolving_update_model.
  - unfold record_relationship.
    apply evolving_bind; [apply evolving_load_model|]. intros o.
    destruct (negb _); [by apply evolving_update_model|apply evolving_ret].
Qed.
End evolution.

Section registry_lifetime.
Import model_info_object model_info.
Variable sa_inspect : string → option Mapper.t.
Variable set_iter : gset string → list string.

Lemma registered_models_empty : registered_models empty_world.
Proof. intros l c. unfold model_class_at. simpl. by rewrite lookup_empty. Qed.

Lemma registered_models_evolves w w' :
  registered_models w → evolves w w' → registered_models w'.
Proof.
  intros Inv [R H] l c Hl. rewrite H in Hl. specialize (R (KClass c)).
  simpl in R. rewrite R. by apply Inv.
Qed.

Lemma call_result (super_call : PyObject → Py World nat) model w w' l :
  model_info_meta.__call__ super_call model w = (inr l, w') →
  _registry w' !! id_of (resolve model) = Some l.
Proof.
  destruct (_registry w !! id_of (resolve model)) as [l0|] eqn:E.
  - rewrite (call_registered _ _ _ _ E). by intros [= <- <-].
  - destruct (super_call (resolve model) w) as [[e|l0] w1] eqn:Ec.
    + by rewrite (call_raises _ _ _ _ _ E Ec).
    + rewrite (call_unregistered _ _ _ _ _ E Ec). intros [= <- <-]. simpl.
      apply lookup_insert_eq.
Qed.

Lemma model_info_call_step model w :
  registered_models w →
  registered_models (call sa_inspect model w).2
  ∧ _registry w ⊆ _registry (call sa_inspect model w).2.
Proof.
  intros Inv. unfold call.
  destruct (_registry w !! id_of (resolve model)) as [l0|] eqn:E.
  { by rewrite (call_registered _ _ _ _ E). }
  destruct (resolve model) as [m|c|owner prop] eqn:Er;
    pose proof E as E'; rewrite <-Er in E'.
  - by destruct model.
  - destruct (sa_inspect c) as [m|] eqn:Hm.
    + destruct (construct_spec sa_inspect c m w Hm) as (w1 & o & Hc & _ & Hconf).
      cbn zeta in Hc. set (self := fresh (dom (heap w))) in *.
      rewrite <-Er in Hc.
      rewrite (call_unregistered _ _ _ _ _ E' Hc). rewrite Er. simpl.
      pose proof (evolving_configure self m c (put_model self (blank m c) w))
        as Hev. rewrite Hconf in Hev. simpl in Hev.
      simpl in E.
      assert (_registry w1 !! KClass c = None) as Hnone.
      { destruct Hev as [R _]. specialize (R (KClass c)). simpl in R.
        by rewrite R. }
      split.
      * intros l c' Hl. unfold model_class_at in Hl. simpl in Hl.
        destruct Hev as [R H]. fold (model_class_at w1 l) in Hl.
        rewrite H in Hl. unfold model_class_at in Hl. simpl in Hl.
        destruct (decide (self = l)) as [<-|Hne].
        -- rewrite lookup_insert_eq in Hl. injection Hl as <-.
           apply lookup_insert_eq.
        -- rewrite lookup_insert_ne in Hl by done.
           apply Inv in Hl. specialize (R (KClass c')). simpl in R.
           simpl. rewrite lookup_insert_ne by congruence. by rewrite R.
      * etrans; [apply (evolves_registry _ _ Hev)|]. by apply insert_subseteq.
    + erewrite call_raises; [done|done|].
      rewrite Er. unfold construct. by rewrite Hm.
  - erewrite call_raises; [done|done|]. by rewrite Er.
Qed.

Lemma then_ret_state {A} (m : Py World A) w : (m ;; mret ()) w = (
  match (m w).1 with inl e => inl e | inr _ => inr () end, (m w).2).
Proof. unfold mbind, Py_bind. by destruct (m w) as [[?|?] ?]. Qed.

Lemma evolving_field_names self : evolving (field_names self).
Proof.
  unfold field_names.
  apply evolving_bind; [apply evolving_load_model|]. intros o.
  apply evolving_bind.
  { destruct (match _field_names o with Some (_ :: _) => false | _ => true end);
      [by apply evolving_update_model|apply evolving_ret]. }
  intros _. apply evolving_bind; [apply evolving_load_model|]. intros o'.
  destruct (_field_names o'); apply evolving_ret.
Qed.

Lemma evolving_mapper_configured self : evolving (mapper_configured self).
Proof.
  unfold mapper_configured.
  apply evolving_bind; [apply evolving_load_model|]. intros o.
  apply evolving_configure.
Qed.

Lemma evolving_composite_field_names self :
  evolving (composite_field_names set_iter self).
Proof.
  intros w. unfold composite_field_names.
  destruct (heap w !! self) as [[o|o]|] eqn:E; try reflexivity.
  destruct (composite_info.field_names set_iter o) as [r o']. simpl.
  split; [intros []; auto|]. intros l. unfold model_class_at. simpl.
  destruct (decide (self = l)) as [<-|];
    [by rewrite lookup_insert_eq, E|by rewrite lookup_insert_ne].
Qed.

Lemma handle_step (ev : Event) w :
  registered_models w →
  registered_models (handle sa_inspect set_iter ev w).2
  ∧ _registry w ⊆ _registry (handle sa_inspect set_iter ev w).2.
Proof.
  intros Inv.
  assert (∀ m : Py World unit, evolving m →
            registered_models (m w).2 ∧ _registry w ⊆ _registry (m w).2) as Hev.
  { intros m Hm. split; [by eapply registered_models_evolves|].
    by apply evolves_registry. }
  destruct ev as [model|composite|self|self|self]; simpl.
  - rewrite then_ret_state. simpl. by apply model_info_call_step.
  - apply Hev, evolving_bind; [apply evolving_composite_info_call|].
    intros _. apply evolving_ret.
  - apply Hev, evolving_mapper_configured.
  - apply Hev, evolving_bind; [apply evolving_field_names|].
    intros _. apply evolving_ret.
  - apply Hev, evolving_bind; [apply evolving_composite_field_names|].
    intros _. apply evolving_ret.
Qed.

Lemma run_steps (events : list Event) w :
  registered_models w →
  registered_models (run sa_inspect set_iter events w)
  ∧ _registry w ⊆ _registry (run sa_inspect set_iter events w).
Proof.
  revert w. induction events as [|ev events IH]; intros w Inv; simpl; [done|].
  destruct (handle_step ev w Inv) as [Inv1 Hsub].
  destruct (IH _ Inv1) as [Inv2 Hsub2]. split; [done|]. by etrans.
Qed.

Lemma registry_of_models_empty : registry_of_models empty_world.
Proof. intros c l. simpl. by rewrite lookup_empty. Qed.

Lemma registry_of_models_evolves w w' :
  registry_of_models w → evolves w w' → registry_of_models w'.
Proof.
  intros Inv [R H] c l Hl. specialize (R (KClass c)). simpl in R.
  rewrite R in Hl. rewrite H. by apply Inv.
Qed.

(** A request registers a class only with the instance it has built for
    it. *)
Lemma model_info_call_classes model w :
  registry_of_models w → registry_of_models (call sa_inspect model w).2.
Proof.
  intros Inv. unfold call.
  destruct (_registry w !! id_of (resolve model)) as [l0|] eqn:E.
  { by rewrite (call_registered _ _ _ _ E). }
  destruct (resolve model) as [m|c|owner prop] eqn:Er;
    pose proof E as E'; rewrite <-Er in E'.
  - by destruct model.
  - destruct (sa_inspect c) as [m|] eqn:Hm.
    + destruct (construct_spec sa_inspect c m w Hm) as (w1 & o & Hc & _ & Hconf).
      cbn zeta in Hc. set (self := fresh (dom (heap w))) in *.
      rewrite <-Er in Hc.
      rewrite (call_unregistered _ _ _ _ _ E' Hc). rewrite Er. simpl.
      pose proof (evolving_configure self m c (put_model self (blank m c) w))
        as Hev. rewrite Hconf in Hev. simpl in Hev. destruct Hev as [R H].
      intros c' l Hl. unfold model_class_at. simpl.
      fold (model_class_at w1 l). rewrite H. unfold model_class_at. simpl.
      simpl in Hl. destruct (decide (c' = c)) as [->|Hne].
      * rewrite lookup_insert_eq in Hl. injection Hl as <-.
        by rewrite lookup_insert_eq.
      * rewrite lookup_insert_ne in Hl by congruence.
        specialize (R (KClass c')). simpl in R. rewrite R in Hl.
        apply Inv in Hl. unfold model_class_at in Hl.
        destruct (decide (self = l)) as [<-|?]; [|by rewrite lookup_insert_ne].
        assert (heap w !! self = None) as Hn
          by apply not_elem_of_dom, is_fresh.
        by rewrite Hn in Hl.
    + erewrite call_raises; [done|done|].
      rewrite Er. unfold construct. by rewrite Hm.
  - erewrite call_raises; [done|done|]. by rewrite Er.
Qed.

Lemma handle_classes (ev : Event) w :
  registry_of_models w →
  registry_of_models (handle sa_inspect set_iter ev w).2.
Proof.
  intros Inv.
  assert (∀ m : Py World unit, evolving m → registry_of_models (m w).2) as Hev.
  { intros m Hm. by eapply registry_of_models_evolves. }
  destruct ev as [model|composite|self|self|self]; simpl.
  - rewrite then_ret_state. simpl. by apply model_info_call_classes.
  - apply Hev, evolving_bind; [apply evolving_composite_info_call|].
    intros _. apply evolving_ret.
  - apply Hev, evolving_mapper_configured.
  - apply Hev, evolving_bind; [apply evolving_field_names|].
    intros _. apply evolving_ret.
  - apply Hev, evolving_bind; [apply evolving_composite_field_names|].
    intros _. apply evolving_ret.
Qed.

Lemma run_classes (events : list Event) w :
  registry_of_models w →
  registry_of_models (run sa_inspect set_iter events w).
Proof.
  revert w. induction events as [|ev events IH]; intros w Inv; simpl; [done|].
  by apply IH, handle_classes.
Qed.

(** C6. One instance per model type.  Over the life of the registry
    (any events [before], a request for the class [c] that returns the
    address [l], any events [after]): [l] holds a [model_info] instance whose
    class is [c], and the registry binds [c] to it; a later request for [c]
    returns [l] again and changes nothing, so nothing is constructed; a
    request through a mapper of [c] does the same; [l] is the only
    [model_info] instance for [c] in the heap; and in every state a request
    through a mapper is the request for the mapper's class. *)
Theorem registry_one_instance (before after : list Event) (c : string)
    (l : nat) (w1 : World) :
  call sa_inspect (OClass c) (run sa_inspect set_iter before empty_world)
  = (inr l, w1) →
  let w2 := run sa_inspect set_iter after w1 in
  (∃ o, heap w2 !! l = Some (IModel o) ∧ model_class o = c)
  ∧ _registry w2 !! KClass c = Some l
  ∧ call sa_inspect (OClass c) w2 = (inr l, w2)
  ∧ (∀ m, Mapper.class_ m = c → call sa_inspect (OMapper m) w2 = (inr l, w2))
  ∧ (∀ l' o', heap w2 !! l' = Some (IModel o') → model_class o' = c → l' = l)
  ∧ (∀ m w, call sa_inspect (OMapper m) w
            = call sa_inspect (OClass (Mapper.class_ m)) w).
Proof.
  intros Hcall w2.
  destruct (run_steps before empty_world registered_models_empty) as [Inv _].
  pose proof (run_classes before empty_world registry_of_models_empty) as Cls.
  pose proof (model_info_call_step (OClass c) _ Inv) as [Inv1 _].
  pose proof (model_info_call_classes (OClass c) _ Cls) as Cls1.
  rewrite Hcall in Inv1, Cls1. simpl in Inv1, Cls1.
  apply call_result in Hcall. simpl in Hcall.
  destruct (run_steps after w1 Inv1) as [Inv2 Hsub]. fold w2 in Inv2, Hsub.
  pose proof (run_classes after w1 Cls1) as Cls2. fold w2 in Cls2.
  assert (_registry w2 !! KClass c = Some l) as Hreg.
  { by eapply lookup_weaken. }
  split_and!.
  - specialize (Cls2 c l Hreg). unfold model_class_at in Cls2.
    destruct (heap w2 !! l) as [[o|o]|]; try done.
    exists o. split; [done|]. by injection Cls2.
  - done.
  - by apply call_registered.
  - intros m <-. by apply call_registered.
  - intros l' o' Hl' Hc. specialize (Inv2 l' c). unfold model_class_at in Inv2.
    rewrite Hl', Hc in Inv2. specialize (Inv2 eq_refl). congruence.
  - reflexivity.
Qed.
End registry_lifetime.

(** ** Sample runs of [model_info] and of the registry *)


(** [configure_idempotent] on a fresh instance for [Vertex]. *)
Lemma configure_idempotent_witness :
  ∃ w1 : World,
    model_info._configure 0 vertex_mapper "Vertex" vertex_allocated = (inr (), w1)
    ∧ model_info._configure 0 vertex_mapper "Vertex" w1 = (inr (), w1).
Proof.
  destruct (configure_idempotent 0 vertex_mapper "Vertex" vertex_allocated
              (model_info.blank vertex_mapper "Vertex")
              (model_at_put_model _ _ _) eq_refl eq_refl)
    as (w1 & o1 & E1 & _ & E2 & _).
  by exists w1.
Defined.


(** [registry_one_instance] on [Vertex], requested again through its
    mapper after [later_events]. *)
Lemma registry_one_instance_witness :
  let w1 := (model_info.call vertex_inspect (OClass "Vertex") empty_world).2 in
  let w2 := run vertex_inspect elements later_events w1 in
  model_info.call vertex_inspect (OMapper vertex_mapper) w2 = (inr 0, w2).
Proof.
  intros w1 w2.
  assert (model_info.call vertex_inspect (OClass "Vertex")
            (run vertex_inspect elements [] empty_world) = (inr 0, w1)) as H.
  { subst w1. rewrite (surjective_pairing (model_info.call _ _ _)) at 1.
    f_equal; by vm_compute. }
  destruct (registry_one_instance vertex_inspect elements [] later_events
              "Vertex" 0 w1 H) as (_ & _ & _ & Hm & _).
  by apply Hm.
Defined.

(** * Further properties

    Properties of the descriptors beyond those above. *)

(** ** [column_info]: the label and the optional keys *)

Section label_facts.

Lemma split_not_nil (sep : ascii) (s : string) : split sep s ≠ [].
Proof.
  destruct s as [|c s]; simpl; [done|].
  destruct (Ascii.eqb c sep); [done|]. by destruct (split sep s).
Qed.

Lemma join_cons_cons (sep x y : string) (l : list string) :
  join sep (x :: y :: l) = x +:+ sep +:+ join sep (y :: l).
Proof. reflexivity. Qed.

(** Splitting at underscores and joining with spaces replaces each
    underscore by a space. *)
Lemma join_split_underscores (s : string) :
  join " " (split "_"%char s) = underscores_to_spaces s.
Proof.
  induction s as [|c s IH]; simpl; [done|].
  destruct (Ascii.eqb c "_"%char) eqn:E.
  - destruct (split "_"%char s) as [|w ws] eqn:Es;
      [by apply split_not_nil in Es|].
    rewrite join_cons_cons, IH. reflexivity.
  - destruct (split "_"%char s) as [|w ws] eqn:Es;
      [by apply split_not_nil in Es|].
    rewrite <-IH. destruct ws; reflexivity.
Qed.

Lemma upper_not_underscore (c : ascii) : c ≠ "_"%char → upper c ≠ "_"%char.
Proof.
  intros Hc. unfold upper.
  destruct ((97 <=? nat_of_ascii c)%nat && (nat_of_ascii c <=? 122)%nat) eqn:E;
    [|done].
  apply andb_true_iff in E as [H1%Nat.leb_le H2%Nat.leb_le].
  intros Heq. apply (f_equal nat_of_ascii) in Heq.
  rewrite nat_ascii_embedding in Heq by lia.
  change (nat_of_ascii "_") with 95 in Heq. lia.
Qed.

Lemma underscores_to_spaces_get (s : string) (i : nat) :
  String.get i (underscores_to_spaces s) ≠ Some "_"%char.
Proof.
  revert i. induction s as [|c s IH]; intros i; simpl; [done|].
  destruct i as [|i]; [|apply IH].
  destruct (Ascii.eqb c "_"%char) eqn:E; [done|].
  apply Ascii.eqb_neq in E. congruence.
Qed.

(** X1. The label of a column is its property name with every underscore
    replaced by a space and then passed to [capfirst].  When the name starts
    with an ASCII character [c], the label is the name with that character in
    upper case (a space when it is an underscore) and every underscore after
    it replaced by a space, so that it holds no underscore at any
    position. *)
Theorem label_replaces_underscores (unicode_capfirst : string → string)
    (self : column_info.t) (c : ascii) (rest : string) :
  ColumnProperty.key (column_info.property self) = String c rest →
  is_ascii c = true →
  column_info.label unicode_capfirst self
  = String (if Ascii.eqb c "_"%char then " "%char else upper c)
      (underscores_to_spaces rest)
  ∧ ∀ i, String.get i (column_info.label unicode_capfirst self)
         ≠ Some "_"%char.
Proof.
  intros Hkey Hc. unfold column_info.label.
  rewrite Hkey, join_split_underscores.
  change (underscores_to_spaces (String c rest))
    with (String (if Ascii.eqb c "_"%char then " "%char else c)
            (underscores_to_spaces rest)).
  assert (capfirst unicode_capfirst
            (String (if Ascii.eqb c "_"%char then " "%char else c)
               (underscores_to_spaces rest))
          = String (if Ascii.eqb c "_"%char then " "%char else upper c)
              (underscores_to_spaces rest)) as ->.
  { unfold capfirst. destruct (Ascii.eqb c "_"%char); [done|]. by rewrite Hc. }
  split; [done|]. intros [|i]; simpl; [|apply underscores_to_spaces_get].
  destruct (Ascii.eqb c "_"%char) eqn:E; [done|].
  apply Ascii.eqb_neq in E. intros [= Heq].
  by apply (upper_not_underscore c).
Qed.
End label_facts.

Section field_kwargs_more.
Import column_info.
Variable unicode_capfirst : string → string.
Variable self : column_info.t.

(** X2. In a bundle that [field_kwargs] returns, [max_digits] and
    [decimal_places] come as a pair: both are there, with the precision and
    the scale of the type, when the type exposes [precision] and [scale] and
    its [python_type] is [Decimal]; in every other case neither key is
    present. *)
Theorem field_kwargs_decimal_pair (kwargs : gmap string PyVal) :
  field_kwargs unicode_capfirst self = inr kwargs →
  match ColumnType.precision (Column.type (column self)),
        ColumnType.scale (Column.type (column self)),
        ColumnType.python_type (Column.type (column self)) with
  | Some p, Some s, inr t =>
      if is_Decimal t then
        kwargs !! "max_digits" = Some p ∧ kwargs !! "decimal_places" = Some s
      else
        kwargs !! "max_digits" = None ∧ kwargs !! "decimal_places" = None
  | _, _, _ =>
      kwargs !! "max_digits" = None ∧ kwargs !! "decimal_places" = None
  end.
Proof.
  intros (info & nullable & kw1 & kw2 & kw3 & _ & _ & E1 & E2 & E3 & ->)
    %field_kwargs_inv.
  assert (kw1 !! "max_digits" = None ∧ kw1 !! "decimal_places" = None)
    as [N1 N2].
  { split; apply eq_None_not_Some; intros H;
      apply (enum_block_keys _ _ _ _ E1) in H as [H|[?|?]]; try done;
      by simplify_map_eq. }
  rewrite !lookup_insert_ne by done.
  rewrite !(length_block_frame _ _ _ _ E3) by done.
  rewrite decimal_block_result in E2.
  destruct (ColumnType.precision _); [|by injection E2 as <-].
  destruct (ColumnType.scale _); [|by injection E2 as <-].
  destruct (ColumnType.python_type _) as [e|t]; [by injection E2 as _ <-|].
  injection E2 as <-. destruct (is_Decimal t); [|done]. by simplify_map_eq.
Qed.

(** X3. In a bundle that [field_kwargs] returns, [max_length] is there
    exactly when the type has a [length] attribute, and holds the
    attribute's value as it is, [None] included. *)
Theorem field_kwargs_max_length (kwargs : gmap string PyVal) :
  field_kwargs unicode_capfirst self = inr kwargs →
  kwargs !! "max_length" = ColumnType.length (Column.type (column self)).
Proof.
  intros (info & nullable & kw1 & kw2 & kw3 & _ & _ & E1 & E2 & E3 & ->)
    %field_kwargs_inv.
  assert (kw2 !! "max_length" = None) as N.
  { rewrite (decimal_block_frame _ _ _ _ E2) by done.
    apply eq_None_not_Some. intros H.
    apply (enum_block_keys _ _ _ _ E1) in H as [H|[?|?]]; try done.
    by simplify_map_eq. }
  rewrite !lookup_insert_ne by done.
  rewrite length_block_result in E3. injection E3 as <-.
  destruct (ColumnType.length _); by simplify_map_eq.
Qed.

(** X4. A bundle that [field_kwargs] returns has no key besides the nine
    of [field_kwargs_keys]. *)
Theorem field_kwargs_only_known_keys (kwargs : gmap string PyVal) :
  field_kwargs unicode_capfirst self = inr kwargs →
  ∀ k, is_Some (kwargs !! k) → k ∈ field_kwargs_keys.
Proof.
  intros (info & nullable & kw1 & kw2 & kw3 & _ & _ & E1 & E2 & E3 & ->)
    %field_kwargs_inv k.
  unfold field_kwargs_keys. rewrite !lookup_insert_is_Some.
  intros [<-|[_ [<-|[_ H3]]]]; [set_solver..|].
  apply (length_block_keys _ _ _ _ E3) in H3 as [H2| ->]; [|set_solver].
  apply (decimal_block_keys _ _ _ _ E2) in H2 as [H1|[->| ->]]; [|set_solver..].
  apply (enum_block_keys _ _ _ _ E1) in H1 as [H0|[->| ->]]; [|set_solver..].
  rewrite !lookup_insert_is_Some, lookup_empty in H0.
  destruct H0 as [<-|[_ [<-|[_ [? [=]]]]]]; set_solver.
Qed.

(** X5. In a bundle that [field_kwargs] returns, [required] is the value
    stored under [required] in the column's [info] when there is one,
    whatever it is, and otherwise the negation of [nullable]; [validators]
    is the stored value or the empty list; and [help_text] is the property's
    [doc]. *)
Theorem field_kwargs_required_and_validators (kwargs : gmap string PyVal)
    (info : gmap string PyVal) (nullable : bool) :
  Column.info (column self) = Some info →
  Column.nullable (column self) = Some nullable →
  field_kwargs unicode_capfirst self = inr kwargs →
  kwargs !! "required"
  = Some match info !! "required" with
         | Some v => v
         | None => VBool (negb nullable)
         end
  ∧ kwargs !! "validators"
    = Some match info !! "validators" with
           | Some v => v
           | None => VList []
           end
  ∧ kwargs !! "help_text" = Some (ColumnProperty.doc (property self)).
Proof.
  intros Hi Hn E.
  destruct (field_kwargs_first_keys _ _ _ E) as [_ Hh].
  apply field_kwargs_inv in E
    as (info' & nullable' & kw1 & kw2 & kw3 & Hi' & Hn' & _ & _ & _ & ->).
  rewrite Hi in Hi'. injection Hi' as <-.
  rewrite Hn in Hn'. injection Hn' as <-.
  split_and!; [by simplify_map_eq..|].
  revert Hh. by rewrite !lookup_insert_ne by done.
Qed.
End field_kwargs_more.

(** ** [composite_info]: attribute names, pairing and repeated reads *)

Section composite_attrs_facts.
Import composite_info.

Lemma elem_of_column_vars (cls : CompositeClass.t) (a : string) :
  a ∈ column_vars cls ↔ ∃ c, CompositeClass.vars cls !! a = Some (ColumnVar c).
Proof.
  unfold column_vars. rewrite list_elem_of_fmap. split.
  - intros ([k v] & -> & [Hv Hin]%list_elem_of_filter). simpl in *.
    apply elem_of_map_to_list in Hin. destruct v as [c|]; [by exists c|done].
  - intros [c Hc]. exists (a, ColumnVar c). split; [done|].
    apply list_elem_of_filter. split; [done|]. by apply elem_of_map_to_list.
Qed.

Lemma NoDup_column_vars (cls : CompositeClass.t) : NoDup (column_vars cls).
Proof.
  unfold column_vars.
  eapply sublist_NoDup;
    [apply (NoDup_fst_map_to_list (CompositeClass.vars cls))|].
  apply fmap_sublist, sublist_filter.
Qed.

(** X6. The attribute names of a composite class: when no variable of the
    class is a [Column] they are the parameter names of the constructor;
    otherwise they are sorted, without repetition, and are exactly the names
    the class binds to a [Column], the constructor being ignored. *)
Theorem attrs_sorted_or_constructor (cls : CompositeClass.t) :
  if bool_decide (column_vars cls = []) then attrs cls = get_args cls
  else
    StronglySorted String.le (attrs cls)
    ∧ NoDup (attrs cls)
    ∧ ∀ a, a ∈ attrs cls
           ↔ ∃ c, CompositeClass.vars cls !! a = Some (ColumnVar c).
Proof.
  unfold attrs. fold (column_vars cls).
  pose proof (merge_sort_Permutation String.le (column_vars cls)) as HP.
  case_bool_decide as Hc.
  - rewrite Hc in *. apply Permutation_nil_r in HP. rewrite HP.
    by rewrite bool_decide_eq_true_2.
  - rewrite bool_decide_eq_false_2; last first.
    { intros Hs. rewrite Hs in HP. by apply Permutation_nil_l in HP. }
    split_and!.
    + apply StronglySorted_merge_sort; apply _.
    + rewrite HP. apply NoDup_column_vars.
    + intros a. rewrite HP. apply elem_of_column_vars.
Qed.

(** Assignments under distinct keys to an empty dictionary give the
    entries in the order of the assignments. *)
Lemma foldl_set_distinct {A V} (step : odict.t V → A → odict.t V)
    (kf : A → string) (vf : A → V) (l : list A) (d : odict.t V) :
  (∀ d x, step d x = odict.set (kf x) (vf x) d) →
  NoDup (odict.keys d ++ (kf <$> l)) →
  foldl step d l = (d ++ ((λ x, (kf x, vf x)) <$> l))%list.
Proof.
  intros Hstep. revert d. induction l as [|x l IH]; intros d ND; simpl.
  - by rewrite app_nil_r.
  - apply NoDup_app in ND as (Hd & Hdis & [Hx Hl]%NoDup_cons).
    rewrite Hstep.
    rewrite odict_set_fresh by (intros ?%Hdis; set_solver).
    rewrite IH, <-app_assoc; [done|].
    unfold odict.keys in *. rewrite fmap_app. simpl.
    apply NoDup_app. split_and!.
    + apply NoDup_app. split_and!; [done| |apply NoDup_singleton].
      intros k Hk ->%list_elem_of_singleton. apply (Hdis _ Hk). by left.
    + intros k [Hk| ->%list_elem_of_singleton]%elem_of_app Hin; [|done].
      apply (Hdis _ Hk). by right.
    + done.
Qed.

(** X7. With distinct attribute names, the [properties] of a new
    [composite_info] pair the names, the sub-properties and the columns
    position by position, in that order, and stop at the shortest of the
    three sequences. *)
Theorem composite_properties_zip (composite : CompositeProperty.t) :
  let names := attrs (CompositeProperty.composite_class composite) in
  let props := CompositeProperty.props composite in
  let columns := CompositeProperty.columns composite in
  NoDup names →
  properties (__init__ composite)
  = (λ '(attr, (prop, col)), (attr, column_info.__init__ prop col))
      <$> zip names (zip props columns)
  ∧ List.length (properties (__init__ composite))
    = List.length names `min` (List.length props `min` List.length columns).
Proof.
  intros names props columns ND.
  assert (properties (__init__ composite)
          = (λ '(attr, (prop, col)), (attr, column_info.__init__ prop col))
              <$> zip names (zip props columns)) as ->.
  { unfold __init__. simpl. fold names props columns.
    etrans; [apply (foldl_set_distinct _ fst
               (λ x, column_info.__init__ x.2.1 x.2.2))|].
    - by intros d [? [? ?]].
    - simpl. eapply sublist_NoDup; [exact ND|].
      generalize (zip props columns). clear. intros l. revert l.
      induction names as [|a names IH]; intros [|x l]; simpl;
        [done|done|apply sublist_nil_l|]. by apply sublist_skip.
    - simpl. apply list_fmap_ext. by intros ? [? [? ?]] _. }
  split; [done|]. by rewrite length_fmap, !length_zip.
Qed.
End composite_attrs_facts.

Lemma filter_nil_Forall {A} (P : A → Prop) `{∀ x, Decision (P x)} (l : list A) :
  filter P l = [] ↔ Forall (λ x, ¬ P x) l.
Proof.
  induction l as [|x l IH]; [by rewrite filter_nil|].
  rewrite filter_cons, Forall_cons. destruct (decide (P x)); [|tauto].
  split; [done|]. by intros [? _].
Qed.

Section composite_reads.
Import composite_info.
Variable set_iter : gset string → list string.

(** X8. The first read of [field_names] on a new [composite_info]
    returns a list in which no name starts with an underscore, in whatever
    order the set is iterated. *)
Theorem composite_field_names_no_underscore (composite : CompositeProperty.t) :
  ∃ names : list string,
    (field_names set_iter (__init__ composite)).1 = inr (FNList names)
    ∧ Forall (λ attr, startswith_underscore attr = false) names.
Proof.
  eexists. rewrite field_names_first_read. split; [reflexivity|].
  apply Forall_forall. intros a [Ha _]%list_elem_of_filter.
  by destruct (startswith_underscore a).
Qed.

Hypothesis set_iter_elements : ∀ s, set_iter s ≡ₚ elements s.

(** X9. Reading [field_names] of a [composite_info] twice.  The first
    read returns a list, which is empty exactly when every attribute name
    starts with an underscore.  When it is not empty the second read returns
    the same list and changes nothing; when it is empty the second read
    raises [AttributeError], the slot then holding a list, which has no
    [update]. *)
Theorem composite_field_names_second_read (composite : CompositeProperty.t) :
  ∃ (names : list string) (self1 : composite_info.t),
    field_names set_iter (__init__ composite) = (inr (FNList names), self1)
    ∧ (names = []
       ↔ Forall (λ attr, startswith_underscore attr = true)
           (odict.keys (properties (__init__ composite))))
    ∧ field_names set_iter self1
      = match names with
        | [] => (inl AttributeError, self1)
        | _ :: _ => (inr (FNList names), self1)
        end.
Proof.
  eexists _, _. split; [apply field_names_first_read|]. cbn zeta.
  set (keys := odict.keys (properties (__init__ composite))).
  split.
  - rewrite filter_nil_Forall, !Forall_forall.
    split.
    + intros H a Ha. specialize (H a).
      destruct (startswith_underscore a); [done|]. destruct H; [|done].
      rewrite set_iter_elements, elem_of_elements, elem_of_union,
        elem_of_list_to_set. by right.
    + intros H a Ha. rewrite set_iter_elements, elem_of_elements, elem_of_union,
        elem_of_list_to_set, elem_of_empty in Ha.
      destruct Ha as [[]|Ha]. rewrite (H a Ha). simpl. tauto.
  - destruct (filter _ _) as [|a names'] eqn:E; [reflexivity|].
    by apply field_names_cached.
Qed.
End composite_reads.

(** ** [relation_info]: the identity key on any relationship *)

Section identity_key_more.
Import relation_info.

(** X10. What [local_remote_pairs_for_identity_key] can do on any
    relationship.  When it returns, the result is either pairs whose remote
    columns are the target primary key, in its order, or the raw pairs of the
    relationship.  It raises only in the fallback, and then the exception is
    that of the read of the referenced column of a foreign key of the owning
    table, in a constraint whose referencing columns include the locally
    known columns: the lookups in the map of a selected constraint never
    fail. *)
Theorem identity_key_outcome (self : relation_info.t) :
  match local_remote_pairs_for_identity_key self with
  | inr res => res.*2 = target_pk self ∨ res = local_remote_pairs self
  | inl e =>
      ordered_pairs (reverse_map (local_remote_pairs self)) (target_pk self)
      = None
      ∧ ∃ c j,
          AForeignKeyConstraint c ∈ Table.constraints (parent_table self)
          ∧ parent_columns self
            ⊆ list_to_set (ForeignKey.parent <$> ForeignKeyConstraint.elements c)
          ∧ j ∈ ForeignKeyConstraint.elements c
          ∧ ForeignKey.column j = inl e
  end.
Proof.
  unfold local_remote_pairs_for_identity_key.
  destruct (ordered_pairs (reverse_map _) _) as [res|] eqn:E.
  { left. by eapply ordered_pairs_snd. }
  destruct (matching_constraints self) as [e|selected] eqn:Em.
  { split; [done|]. unfold matching_constraints in Em.
    apply select_inl in Em as (c & Hc%elem_of_foreign_key_constraints & Hm).
    apply matches_raises in Hm as (Hp & j & Hj & Ej). by exists c, j. }
  case_bool_decide as Hlen; [|by right].
  destruct selected as [|c l]; [done|].
  destruct (selected_constraint_pairs self (c :: l) c Em)
    as (pairs & res & Ec & E' & _); [by left|].
  rewrite Ec, E'. left. by eapply ordered_pairs_snd.
Qed.

(** The reverse map binds a remote column to the local column of the last
    pair that carries it. *)
Lemma reverse_map_last (l1 l2 : list (string * string)) (l r : string) :
  r ∉ l2.*2 → reverse_map (l1 ++ (l, r) :: l2) !! r = Some l.
Proof.
  intros Hr. unfold reverse_map. rewrite foldl_app. simpl.
  generalize (foldl (λ (m : gmap string string) '(k, v), <[v := k]> m) ∅ l1).
  intros m.
  destruct (foldl _ (<[r:=l]> m) l2 !! r) as [l'|] eqn:E.
  - apply reverse_map_acc_lookup in E as [E|E].
    + destruct Hr. apply list_elem_of_fmap. by exists (l', r).
    + by simplify_map_eq.
  - assert (is_Some (foldl (λ (m : gmap string string) '(k, v), <[v := k]> m)
                       (<[r:=l]> m) l2 !! r)) as [? ?]; [|congruence].
    apply reverse_map_acc_is_Some. right. by simplify_map_eq.
Qed.

(** X11. When several raw pairs carry the same remote column, the local
    column of the last of them is the one paired with it: for a
    single-column target key [r] whose last raw pair is [(l, r)], the result
    is [[(l, r)]]. *)
Theorem identity_key_last_pair_wins (self : relation_info.t)
    (l1 l2 : list (string * string)) (l r : string) :
  local_remote_pairs self = (l1 ++ (l, r) :: l2)%list →
  r ∉ l2.*2 →
  target_pk self = [r] →
  local_remote_pairs_for_identity_key self = inr [(l, r)].
Proof.
  intros Hlr Hr Hpk. unfold local_remote_pairs_for_identity_key.
  rewrite Hlr, Hpk. unfold ordered_pairs. simpl.
  by rewrite (reverse_map_last _ _ _ _ Hr).
Qed.

(** With distinct remote columns the reverse map holds exactly the raw
    pairs, whatever their order. *)
Lemma reverse_map_NoDup (pairs : list (string * string)) (l r : string) :
  NoDup pairs.*2 → reverse_map pairs !! r = Some l ↔ (l, r) ∈ pairs.
Proof.
  intros ND. split; [apply reverse_map_lookup|].
  by apply reverse_map_acc_NoDup.
Qed.

Lemma reverse_map_Permutation (pairs pairs' : list (string * string)) :
  NoDup pairs.*2 → pairs ≡ₚ pairs' → reverse_map pairs = reverse_map pairs'.
Proof.
  intros ND HP. assert (NoDup pairs'.*2) as ND' by (by rewrite <-HP).
  apply map_eq. intros r. apply option_eq. intros l.
  by rewrite !reverse_map_NoDup, HP.
Qed.

(** X12. With distinct remote columns, the order of the raw pairs does
    not matter, except that the fallback returns them as they are: two
    relationships with the same target key and owning table and raw pairs
    that are permutations of each other get the same result, or each gets
    its own raw pairs. *)
Theorem identity_key_pairs_order (self self' : relation_info.t) :
  NoDup (local_remote_pairs self).*2 →
  local_remote_pairs self ≡ₚ local_remote_pairs self' →
  target_pk self = target_pk self' →
  parent_table self = parent_table self' →
  local_remote_pairs_for_identity_key self
  = local_remote_pairs_for_identity_key self'
  ∨ (local_remote_pairs_for_identity_key self = inr (local_remote_pairs self)
     ∧ local_remote_pairs_for_identity_key self'
       = inr (local_remote_pairs self')).
Proof.
  intros ND HP Hpk Htab.
  pose proof (reverse_map_Permutation _ _ ND HP) as Hrev.
  assert (matching_constraints self = matching_constraints self') as Hm.
  { unfold matching_constraints, parent_columns, target_columns.
    by rewrite Hrev, Hpk, Htab. }
  unfold local_remote_pairs_for_identity_key. rewrite <-Hrev, <-Hpk, <-Hm.
  destruct (ordered_pairs _ _); [by left|].
  destruct (matching_constraints self) as [e|selected]; [by left|].
  case_bool_decide; [by left|by right].
Qed.

(** X13. The order in which the owning table declares its constraints
    does not matter: two relationships with the same raw pairs and target
    key, over tables whose constraints are permutations of each other, get
    the same result; or both raise, each the exception of the read of a
    referenced column, the first such read depending on the order. *)
Theorem identity_key_constraint_order (self self' : relation_info.t) :
  local_remote_pairs self = local_remote_pairs self' →
  target_pk self = target_pk self' →
  Table.constraints (parent_table self)
  ≡ₚ Table.constraints (parent_table self') →
  local_remote_pairs_for_identity_key self
  = local_remote_pairs_for_identity_key self'
  ∨ ∃ e e',
      local_remote_pairs_for_identity_key self = inl e
      ∧ local_remote_pairs_for_identity_key self' = inl e'.
Proof.
  intros Hlr Hpk HP.
  assert (foreign_key_constraints (Table.constraints (parent_table self))
          ≡ₚ foreign_key_constraints (Table.constraints (parent_table self')))
    as HP' by (unfold foreign_key_constraints; by rewrite HP).
  pose proof (select_Permutation
                (matches (parent_columns self) (target_columns self)) _ _ HP')
    as Hsel.
  assert (matching_constraints self'
          = select (matches (parent_columns self) (target_columns self))
              (foreign_key_constraints (Table.constraints (parent_table self'))))
    as Hm'.
  { unfold matching_constraints, parent_columns, target_columns.
    by rewrite Hlr, Hpk. }
  unfold local_remote_pairs_for_identity_key. rewrite <-Hlr, <-Hpk, Hm'.
  fold (matching_constraints self) in Hsel.
  destruct (ordered_pairs _ _); [by left|].
  destruct (matching_constraints self) as [e|selected],
    (select _ (foreign_key_constraints (Table.constraints (parent_table self'))))
    as [e'|selected']; try done; [right; by exists e, e'|].
  left. rewrite <-(Permutation_length Hsel).
  case_bool_decide as Hlen; [|done].
  destruct selected as [|c [|??]]; try done.
  apply Permutation_singleton_l in Hsel. by subst selected'.
Qed.
End identity_key_more.

(** ** The shared registry and the assertions of [_configure] *)

Section requests.
Import model_info_object model_info.
Variable sa_inspect : string → option Mapper.t.

(** X15. The registry is the one dictionary of the metaclass and is keyed
    by the requested object alone: once [model_info] has returned an
    instance for an object, [composite_info] on that object returns the same
    instance and constructs nothing, and the other way round. *)
Theorem registry_keyed_by_object (model : PyObject) (l : nat) (w w1 : World) :
  (call sa_inspect model w = (inr l, w1) →
   composite_info_call model w1 = (inr l, w1))
  ∧ (composite_info_call model w = (inr l, w1) →
     call sa_inspect model w1 = (inr l, w1)).
Proof.
  unfold call, composite_info_call.
  split; intros H; apply call_result in H;
    exact (call_registered _ _ _ _ H).
Qed.

(** X16. [_configure] called with a mapper or a class other than the
    instance's own raises [AssertionError] and leaves the state as it
    is. *)
Theorem configure_asserts (self : nat) (mapper_ : Mapper.t) (class_ : string)
    (w : World) (o : model_info_object.t) :
  heap w !! self = Some (IModel o) →
  Mapper.ident mapper_ ≠ Mapper.ident (mapper o) ∨ class_ ≠ model_class o →
  _configure self mapper_ class_ w = (inl AssertionError, w).
Proof.
  intros H Hne. unfold _configure.
  rewrite (bind_inr _ _ _ _ _ (load_model_at _ _ _ H)).
  destruct (decide (Mapper.ident mapper_ = Mapper.ident (mapper o))) as [Hid|Hid].
  - destruct Hne as [?|Hc]; [done|].
    rewrite (bool_decide_eq_true_2 (Mapper.ident mapper_ = _)) by done.
    rewrite (bind_inr _ _ w w () (assert_true w)).
    by rewrite (bool_decide_eq_false_2 (class_ = _)).
  - by rewrite (bool_decide_eq_false_2 (Mapper.ident mapper_ = _)).
Qed.
End requests.

(** ** The descriptors of a new [model_info] *)

Section guarded_lookup.
Context {A V : Type}.
Variables (skip : A → bool) (kf : A → string) (vf : A → V).

Lemma odict_get_app (d : odict.t V) (k k' : string) (v : V) :
  odict.get k (d ++ [(k', v)])%list
  = match odict.get k d with
    | Some v' => Some v'
    | None => if decide (k = k') then Some v else None
    end.
Proof.
  induction d as [|[k0 v0] d IH]; simpl; [done|].
  by destruct (decide (k = k0)).
Qed.

Lemma odict_get_None (d : odict.t V) (k : string) :
  odict.get k d = None ↔ k ∉ odict.keys d.
Proof.
  rewrite <-odict_get_Some, eq_None_not_Some. done.
Qed.

(** The descriptor recorded under a name is the one that was there, or
    else that of the first element of the sequence that has the name and
    is not skipped. *)
Lemma add_absent_get (d : odict.t V) (l : list A) (k : string) :
  odict.get k (foldl (add_absent skip kf vf) d l)
  = match odict.get k d with
    | Some v => Some v
    | None => vf <$> head (filter (λ x, skip x = false ∧ kf x = k) l)
    end.
Proof.
  revert d. induction l as [|x l IH]; intros d; simpl.
  - by destruct (odict.get k d).
  - rewrite IH. unfold add_absent. rewrite filter_cons.
    destruct (skip x) eqn:Es.
    { rewrite decide_False by (intros [? _]; done). done. }
    destruct (odict.contains (kf x) d) eqn:E.
    + apply odict_contains_true in E.
      destruct (odict.get k d) eqn:Eg; [done|].
      rewrite decide_False; [done|]. intros [_ <-].
      by apply odict_get_None in Eg.
    + apply odict_contains_false in E. rewrite odict_set_fresh by done.
      rewrite odict_get_app. destruct (odict.get k d) eqn:Eg; [done|].
      destruct (decide (k = kf x)) as [->|Hne].
      * by rewrite decide_True.
      * rewrite decide_False; [done|]. by intros [_ <-].
Qed.
End guarded_lookup.

Section construct_columns.
Import model_info_object model_info.
Variable sa_inspect : string → option Mapper.t.

(** [_configure] does not touch the cached field names. *)
Lemma configure_field_names (self : nat) (mapper_ : Mapper.t) (class_ : string)
    (w : World) (o : model_info_object.t) :
  model_at w self o →
  Mapper.ident mapper_ = Mapper.ident (mapper o) →
  class_ = model_class o →
  ∃ w' o',
    _configure self mapper_ class_ w = (inr (), w')
    ∧ model_at w' self o'
    ∧ _field_names o' = _field_names o.
Proof.
  intros H Hid Hcls. unfold _configure.
  rewrite (bind_inr _ _ _ _ _ (load_model_at _ _ _ H)).
  rewrite !bool_decide_eq_true_2 by done.
  rewrite !(bind_inr _ _ w w () (assert_true w)).
  rewrite (bind_inr _ _ _ _ _ (primary_keys_loop _ _ _ _ _ H)).
  set (o1 := set_primary_keys _ o).
  rewrite (bind_inr _ _ _ _ _
             (columns_loop _ _ _ _ _ (model_at_put_model w self o1))).
  rewrite put_model_twice. set (o2 := set_properties _ o1).
  destruct (composites_loop self (Mapper.composites (mapper o)) _ o2
              (model_at_put_model w self o2))
    as (w3 & d' & Hfor & Hat & _).
  rewrite (bind_inr _ _ _ _ _ Hfor).
  rewrite (relationships_loop _ _ _ _ Hat).
  eexists _, _. split; [reflexivity|].
  split; [apply model_at_put_model|]. done.
Qed.

(** The two column maps of a new instance, as [_configure] fills them. *)
Lemma construct_maps (c : string) (m : Mapper.t) (w : World) :
  sa_inspect c = Some m →
  ∃ self w' o,
    construct sa_inspect (OClass c) w = (inr self, w')
    ∧ heap w' !! self = Some (IModel o)
    ∧ _field_names o = None
    ∧ primary_keys o
      = foldl (add_absent (λ _, false) (column_key m) (column_descriptor m))
          [] (Mapper.primary_key m)
    ∧ properties o
      = foldl (add_absent
                 (λ col, odict.contains (column_key m col) (primary_keys o))
                 (column_key m) (column_descriptor m))
          [] (Mapper.columns m).
Proof.
  intros Hm. set (self := fresh (dom (heap w))).
  destruct (configure_spec self m c _ (blank m c)
              (model_at_put_model w self (blank m c)) eq_refl eq_refl)
    as (w' & o & E & Hat & _ & _ & Hpks & Hprop & _).
  exists self, w', o. split_and!; try done.
  - unfold construct. rewrite Hm.
    assert (alloc (IModel (blank m c)) w
            = (inr self, put_model self (blank m c) w)) as Ha by reflexivity.
    rewrite (bind_inr _ _ _ _ _ Ha). by rewrite (bind_inr _ _ _ _ _ E).
  - destruct (configure_field_names self m c _ (blank m c)
                (model_at_put_model w self (blank m c)) eq_refl eq_refl)
      as (w'' & o'' & E'' & Hat'' & Hf).
    rewrite E in E''. injection E'' as <-.
    unfold model_at in *. rewrite Hat in Hat''. injection Hat'' as <-.
    by rewrite Hf.
Qed.

Lemma elem_of_fmap_filter {A} (kf : A → string) (P : A → Prop)
    `{∀ x, Decision (P x)} (l : list A) (k : string) :
  (∃ x, x ∈ l ∧ P x ∧ kf x = k) ↔ k ∈ kf <$> filter P l.
Proof.
  rewrite list_elem_of_fmap. setoid_rewrite list_elem_of_filter.
  split; intros (x & ?); exists x; intuition.
Qed.

(** X17. The two column maps of a new [model_info], for any mapper: the
    names in [primary_keys] are exactly the property names of the
    primary-key columns; the names in [properties] are exactly the property
    names of the mapped columns that are not names of primary-key columns;
    and no name is recorded twice. *)
Theorem construct_column_names (c : string) (m : Mapper.t) (w : World) :
  sa_inspect c = Some m →
  ∃ self w' o,
    construct sa_inspect (OClass c) w = (inr self, w')
    ∧ heap w' !! self = Some (IModel o)
    ∧ NoDup (odict.keys (primary_keys o) ++ odict.keys (properties o))
    ∧ (∀ k, k ∈ odict.keys (primary_keys o)
            ↔ k ∈ column_key m <$> Mapper.primary_key m)
    ∧ (∀ k, k ∈ odict.keys (properties o)
            ↔ k ∈ column_key m <$> Mapper.columns m
              ∧ k ∉ column_key m <$> Mapper.primary_key m).
Proof.
  intros Hm.
  destruct (construct_maps c m w Hm) as (self & w' & o & E & Hat & _ & Hpk & Hprop).
  exists self, w', o. split; [done|]. split; [done|].
  assert (∀ k, k ∈ odict.keys (primary_keys o)
               ↔ k ∈ column_key m <$> Mapper.primary_key m) as Hpks.
  { intros k. rewrite Hpk, add_absent_keys, list_elem_of_fmap.
    unfold odict.keys. simpl. rewrite elem_of_nil. split.
    - intros [[]|(x & ? & _ & <-)]. by exists x.
    - intros (x & -> & ?). right. by exists x. }
  assert (∀ k, k ∈ odict.keys (properties o)
               ↔ k ∈ column_key m <$> Mapper.columns m
                 ∧ k ∉ column_key m <$> Mapper.primary_key m) as Hprops.
  { intros k. rewrite <-Hpks, Hprop, add_absent_keys, list_elem_of_fmap.
    unfold odict.keys at 1. simpl. rewrite elem_of_nil. split.
    - intros [[]|(x & ? & Hs%odict_contains_false & <-)].
      split; [by exists x|done].
    - intros [(x & -> & ?) Hn]. right. exists x.
      split_and!; [done| |done]. by apply odict_contains_false. }
  split_and!; [|done|done].
  apply NoDup_app. split_and!.
  - rewrite Hpk. apply add_absent_NoDup, NoDup_nil_2.
  - intros k Hk [_ Hn]%Hprops. by apply Hn, Hpks.
  - rewrite Hprop. apply add_absent_NoDup, NoDup_nil_2.
Qed.

(** X18. When several columns map to a property of the same name, the
    first one in the mapper's order is the one described: in a new
    [model_info], the descriptor under a name in [primary_keys] is that of
    the first primary-key column with that name, and for a name that is not
    a primary-key name the descriptor in [properties] is that of the first
    mapped column with that name. *)
Theorem construct_first_column_wins (c : string) (m : Mapper.t) (w : World) :
  sa_inspect c = Some m →
  ∃ self w' o,
    construct sa_inspect (OClass c) w = (inr self, w')
    ∧ heap w' !! self = Some (IModel o)
    ∧ (∀ k, odict.get k (primary_keys o)
            = column_descriptor m
                <$> head (filter (λ col, column_key m col = k)
                            (Mapper.primary_key m)))
    ∧ (∀ k, k ∉ column_key m <$> Mapper.primary_key m →
            odict.get k (properties o)
            = column_descriptor m
                <$> head (filter (λ col, column_key m col = k)
                            (Mapper.columns m))).
Proof.
  intros Hm.
  destruct (construct_maps c m w Hm) as (self & w' & o & E & Hat & _ & Hpk & Hprop).
  exists self, w', o. split; [done|]. split; [done|].
  assert (∀ k, odict.get k (primary_keys o)
               = column_descriptor m
                   <$> head (filter (λ col, column_key m col = k)
                               (Mapper.primary_key m))) as Hget.
  { intros k. rewrite Hpk, add_absent_get. simpl. do 2 f_equal.
    apply list_filter_iff. intros col. tauto. }
  split; [done|]. intros k Hk.
  rewrite Hprop, add_absent_get. simpl. do 2 f_equal.
  apply list_filter_iff. intros col. split; [tauto|]. intros <-.
  split; [|done]. apply odict_contains_false. intros Hin. apply Hk.
  apply odict_get_Some in Hin as [v Hv]. rewrite Hget in Hv.
  destruct (head _) as [col'|] eqn:Eh; [|done].
  apply head_Some_elem_of, list_elem_of_filter in Eh as [<- ?].
  apply list_elem_of_fmap. by exists col'.
Qed.
End construct_columns.

Section construct_composites.
Import model_info_object model_info.
Variable sa_inspect : string → option Mapper.t.




End construct_composites.

(** ** [model_info.field_names] *)

Section field_names_reads.
Import model_info_object model_info.

Lemma field_names_recompute (self : nat) (w : World) (o : model_info_object.t) :
  model_at w self o →
  _field_names o = None ∨ _field_names o = Some [] →
  field_names self w
  = (inr (compute_field_names o),
     put_model self (set_field_names (Some (compute_field_names o)) o) w).
Proof.
  intros H Hf. unfold field_names.
  rewrite (bind_inr _ _ _ _ _ (load_model_at _ _ _ H)).
  assert (match _field_names o with Some (_ :: _) => false | _ => true end = true)
    as -> by (by destruct Hf as [-> | ->]).
  rewrite (bind_inr _ _ _ _ _ (update_model_at _ _ _ _ H)).
  by rewrite (bind_inr _ _ _ _ _ (load_model_at _ _ _ (model_at_put_model _ _ _))).
Qed.

Lemma field_names_cached_read (self : nat) (w : World) (o : model_info_object.t)
    (a : string) (l : list string) :
  model_at w self o →
  _field_names o = Some (a :: l) →
  field_names self w = (inr (a :: l), w).
Proof.
  intros H Hf. unfold field_names.
  rewrite (bind_inr _ _ _ _ _ (load_model_at _ _ _ H)). rewrite Hf.
  assert ((mret () : Py World ()) w = (inr (), w)) as Hr by reflexivity.
  rewrite (bind_inr _ _ _ _ _ Hr).
  rewrite (bind_inr _ _ _ _ _ (load_model_at _ _ _ H)). by rewrite Hf.
Qed.

(** X20. [field_names] of a [model_info] that has not been read yet
    returns the names of the primary keys, columns, composites and
    relationships, in this order, without those that start with an
    underscore; it never raises; a second read returns the same list and
    changes nothing; and the reads touch neither the registry nor any other
    instance. *)
Theorem model_field_names_first_and_later_reads (self : nat) (w : World)
    (o : model_info_object.t) :
  heap w !! self = Some (IModel o) →
  _field_names o = None →
  ∃ names w',
    field_names self w = (inr names, w')
    ∧ field_names self w' = (inr names, w')
    ∧ names = filter (λ attr, startswith_underscore attr = false)
                (odict.keys (primary_keys o) ++ odict.keys (properties o)
                 ++ odict.keys (composites o) ++ odict.keys (relationships o))%list
    ∧ _registry w' = _registry w
    ∧ ∀ l, l ≠ self → heap w' !! l = heap w !! l.
Proof.
  intros H Hf. eexists _, _.
  split; [apply (field_names_recompute self w o H); by left|].
  set (o1 := set_field_names (Some (compute_field_names o)) o).
  assert (compute_field_names o1 = compute_field_names o) as Hsame by reflexivity.
  split_and!.
  - destruct (compute_field_names o) as [|a l] eqn:Ec.
    + rewrite (field_names_recompute self _ o1 (model_at_put_model _ _ _));
        [|by right].
      rewrite Hsame, put_model_twice. reflexivity.
    + apply (field_names_cached_read self _ o1 a l);
        [apply model_at_put_model|done].
  - unfold compute_field_names. apply list_filter_iff. intros a.
    by destruct (startswith_underscore a).
  - done.
  - intros l Hne. simpl. by rewrite lookup_insert_ne.
Qed.

(** X21. Once [field_names] has returned a non-empty list, the list is
    kept: after a later "mapper_configured" notification, which returns
    without raising, [field_names] still returns that list, whatever
    [_configure] has recorded in between. *)
Theorem model_field_names_survive_configure (self : nat) (w w1 : World)
    (o : model_info_object.t) (names : list string) :
  heap w !! self = Some (IModel o) →
  field_names self w = (inr names, w1) →
  names ≠ [] →
  ∃ w2,
    mapper_configured self w1 = (inr (), w2)
    ∧ field_names self w2 = (inr names, w2).
Proof.
  intros H Hread Hne.
  assert (∃ o1, model_at w1 self o1 ∧ _field_names o1 = Some names)
    as (o1 & H1 & Hf1).
  { destruct (_field_names o) as [[|a l]|] eqn:Hf.
    - rewrite (field_names_recompute self w o H) in Hread by (by right).
      injection Hread as <- <-. eexists. split; [apply model_at_put_model|done].
    - rewrite (field_names_cached_read self w o a l H Hf) in Hread.
      injection Hread as <- <-. by exists o.
    - rewrite (field_names_recompute self w o H) in Hread by (by left).
      injection Hread as <- <-. eexists. split; [apply model_at_put_model|done]. }
  destruct (configure_field_names self (mapper o1) (model_class o1) w1 o1 H1
              eq_refl eq_refl) as (w2 & o2 & E & H2 & Hf2).
  exists w2. split.
  - unfold mapper_configured.
    by rewrite (bind_inr _ _ _ _ _ (load_model_at _ _ _ H1)).
  - destruct names as [|a l]; [done|].
    apply (field_names_cached_read self w2 o2 a l H2). congruence.
Qed.
End field_names_reads.

(** ** Sample runs of the further properties *)

(** [label_replaces_underscores] on [price_column]. *)
Lemma label_replaces_underscores_witness :
  column_info.label id price_column = "Unit price".
Proof.
  destruct (label_replaces_underscores id price_column "u"%char "nit_price")
    as [E _]; [reflexivity|reflexivity|].
  exact E.
Defined.

(** [field_kwargs_decimal_pair] on [price_column]. *)
Lemma field_kwargs_decimal_pair_witness :
  ∃ kwargs : gmap string PyVal,
    column_info.field_kwargs id price_column = inr kwargs
    ∧ kwargs !! "max_digits" = Some (VInt 10)
    ∧ kwargs !! "decimal_places" = Some (VInt 2).
Proof.
  destruct (column_info.field_kwargs id price_column) as [e|kwargs] eqn:E;
    [by vm_compute in E|].
  exists kwargs. split; [done|].
  exact (field_kwargs_decimal_pair id price_column kwargs E).
Defined.

(** [field_kwargs_max_length] on [title_column]. *)
Lemma field_kwargs_max_length_witness :
  ∃ kwargs : gmap string PyVal,
    column_info.field_kwargs id title_column = inr kwargs
    ∧ kwargs !! "max_length" = Some (VInt 50).
Proof.
  destruct (column_info.field_kwargs id title_column) as [e|kwargs] eqn:E;
    [by vm_compute in E|].
  exists kwargs. split; [done|].
  exact (field_kwargs_max_length id title_column kwargs E).
Defined.

(** [field_kwargs_only_known_keys] on [title_column]. *)
Lemma field_kwargs_only_known_keys_witness :
  ∃ kwargs : gmap string PyVal,
    column_info.field_kwargs id title_column = inr kwargs
    ∧ ∀ k, is_Some (kwargs !! k) → k ∈ field_kwargs_keys.
Proof.
  destruct (column_info.field_kwargs id title_column) as [e|kwargs] eqn:E;
    [by vm_compute in E|].
  exists kwargs. split; [done|].
  exact (field_kwargs_only_known_keys id title_column kwargs E).
Defined.

(** [field_kwargs_required_and_validators] on [title_column], whose
    [info] overrides [required]. *)
Lemma field_kwargs_required_and_validators_witness :
  ∃ kwargs : gmap string PyVal,
    column_info.field_kwargs id title_column = inr kwargs
    ∧ kwargs !! "required" = Some (VBool false)
    ∧ kwargs !! "validators" = Some (VList []).
Proof.
  destruct (column_info.field_kwargs id title_column) as [e|kwargs] eqn:E;
    [by vm_compute in E|].
  destruct (field_kwargs_required_and_validators id title_column kwargs
              {["required" := VBool false]} false eq_refl eq_refl E)
    as (R & V & _).
  exists kwargs. split_and!; [done|exact R|exact V].
Defined.

(** [composite_properties_zip] on a sample input. *)
Lemma composite_properties_zip_witness :
  odict.keys (composite_info.properties (composite_info.__init__ point_composite))
  = ["x"; "y"].
Proof.
  destruct (composite_properties_zip point_composite) as [E _].
  - apply (bool_decide_unpack _). by vm_compute.
  - by rewrite E.
Defined.

(** [composite_field_names_second_read] on a sample input. *)
Lemma composite_field_names_second_read_witness :
  ∃ self1 : composite_info.t,
    composite_info.field_names elements
      (composite_info.__init__ hidden_point_composite)
    = (inr (FNList []), self1)
    ∧ composite_info.field_names elements self1 = (inl AttributeError, self1).
Proof.
  destruct (composite_field_names_second_read elements
              (λ s, reflexivity (elements s)) hidden_point_composite)
    as (names & self1 & E & Hnil & E2).
  assert (names = []) as ->.
  { apply Hnil, (bool_decide_unpack _). by vm_compute. }
  by exists self1.
Defined.

(** [identity_key_last_pair_wins] on a sample input. *)
Lemma identity_key_last_pair_wins_witness :
  relation_info.local_remote_pairs_for_identity_key post_author_twice
  = inr [("post.user_id", "user.id")].
Proof.
  apply (identity_key_last_pair_wins post_author_twice
           [("post.editor_id", "user.id")] []); [reflexivity| |reflexivity].
  simpl. apply not_elem_of_nil.
Defined.

(** [identity_key_pairs_order] on a sample input. *)
Lemma identity_key_pairs_order_witness :
  relation_info.local_remote_pairs_for_identity_key child_parent_full
  = relation_info.local_remote_pairs_for_identity_key child_parent_full_swapped
  ∨ (relation_info.local_remote_pairs_for_identity_key child_parent_full
     = inr (relation_info.local_remote_pairs child_parent_full)
     ∧ relation_info.local_remote_pairs_for_identity_key child_parent_full_swapped
       = inr (relation_info.local_remote_pairs child_parent_full_swapped)).
Proof.
  apply (identity_key_pairs_order child_parent_full child_parent_full_swapped);
    [|apply perm_swap|reflexivity|reflexivity].
  apply (bool_decide_unpack _). by vm_compute.
Defined.

(** [identity_key_constraint_order] on a sample input. *)
Lemma identity_key_constraint_order_witness :
  relation_info.local_remote_pairs_for_identity_key child_parent
  = relation_info.local_remote_pairs_for_identity_key child_parent_fk_first.
Proof.
  destruct (identity_key_constraint_order child_parent child_parent_fk_first)
    as [H|(e & e' & H & _)];
    [reflexivity|reflexivity|apply perm_swap|exact H|].
  by vm_compute in H.
Defined.

(** [configure_asserts] on a sample input. *)
Lemma configure_asserts_witness :
  model_info._configure 0 vertex_mapper "Edge" vertex_allocated
  = (inl AssertionError, vertex_allocated).
Proof.
  apply (configure_asserts 0 vertex_mapper "Edge" vertex_allocated
           (model_info.blank vertex_mapper "Vertex")); [reflexivity|].
  right. discriminate.
Defined.

(** [construct_column_names] on a sample input. *)
Lemma construct_column_names_witness :
  ∃ (self : nat) (w' : World) (o : model_info_object.t),
    model_info.construct vertex_inspect (OClass "Vertex") empty_world
    = (inr self, w')
    ∧ heap w' !! self = Some (IModel o)
    ∧ "id" ∉ odict.keys (model_info_object.properties o).
Proof.
  destruct (construct_column_names vertex_inspect "Vertex" vertex_mapper
              empty_world eq_refl)
    as (self & w' & o & E & H & _ & _ & Hprops).
  exists self, w', o. split_and!; [done|done|].
  intros [_ Hk]%Hprops. apply Hk. vm_compute. by left.
Defined.

(** [construct_first_column_wins] on a sample input. *)
Lemma construct_first_column_wins_witness :
  ∃ (self : nat) (w' : World) (o : model_info_object.t),
    model_info.construct vertex_inspect (OClass "Vertex") empty_world
    = (inr self, w')
    ∧ heap w' !! self = Some (IModel o)
    ∧ odict.get "x1" (model_info_object.properties o)
      = Some (column_descriptor vertex_mapper (vertex_column "vertex.x1")).
Proof.
  destruct (construct_first_column_wins vertex_inspect "Vertex" vertex_mapper
              empty_world eq_refl)
    as (self & w' & o & E & H & _ & Hprops).
  exists self, w', o. split_and!; [done|done|].
  rewrite (Hprops "x1"); [reflexivity|].
  apply (bool_decide_unpack _). by vm_compute.
Defined.


(** [model_field_names_first_and_later_reads] on a sample input. *)
Lemma model_field_names_first_and_later_reads_witness :
  ∃ w' : World,
    model_info.field_names 0 vertex_registered
    = (inr ["id"; "x1"; "y1"; "start"; "parent"], w')
    ∧ model_info.field_names 0 w'
      = (inr ["id"; "x1"; "y1"; "start"; "parent"], w').
Proof.
  destruct (model_field_names_first_and_later_reads 0 vertex_registered vertex_model)
    as (names & w' & E1 & E2 & Hn & _); [by vm_compute|by vm_compute|].
  vm_compute in Hn. subst names. by exists w'.
Defined.

(** [model_field_names_survive_configure] on a sample input. *)
Lemma model_field_names_survive_configure_witness :
  ∃ w2 : World,
    model_info.mapper_configured 0
      (model_info.field_names 0 vertex_registered).2 = (inr (), w2)
    ∧ model_info.field_names 0 w2
      = (inr ["id"; "x1"; "y1"; "start"; "parent"], w2).
Proof.
  apply (model_field_names_survive_configure 0 vertex_registered _ vertex_model);
    [by vm_compute| |done].
  rewrite (surjective_pairing (model_info.field_names _ _)) at 1.
  f_equal; by vm_compute.
Defined.
